(** * Signature V4 canonicalization helpers of yig ([signature/v4-utils.go])

    A shallow embedding of the four helpers of [signature/v4-utils.go]
    ([isValidRegion], [sumHMAC], [getURLEncodedName], [getCanonicalHeaders])
    together with the parts of the Go runtime and standard library they call
    (UTF-8 decoding of the [range] clause, [unicode/utf8], [encoding/hex],
    [strings.ToUpper], [regexp] for the one pattern used, [crypto/sha256],
    [crypto/hmac], [net/http.CanonicalHeaderKey]).

    Conventions.  A Go [string] is a sequence of bytes: it is a [string] here
    (a list of [ascii], 8 bits each).  A [[]byte] is a [list ascii].  A [rune]
    (int32) and every intermediate integer is a [Z]; conversions that truncate
    in Go ([byte(x)], [uint32(x)]) are written out with [mod].  A Go panic
    (index out of range) is the [None] of an [option]. *)

From Stdlib Require Import ZArith Lia String Ascii List Bool.
From stdpp Require Import gmap strings list.

Local Open Scope Z_scope.

(** ** Bytes *)

Abbreviation byte := ascii.

(** The numeric value of a byte, in <<[0, 256)>>. *)
Definition b2z (c : byte) : Z := Z.of_N (N_of_ascii c).

(** Go's conversion [byte(x)] of an integer: the low 8 bits. *)
Definition u8 (z : Z) : Z := z mod 256.

(** The byte holding [byte(z)]. *)
Definition z2b (z : Z) : byte := ascii_of_N (Z.to_N (u8 z)).

(** [[]byte(s)] and [string(b)]. *)
Definition bytes_of_string (s : string) : list byte := list_ascii_of_string s.
Definition string_of_bytes (b : list byte) : string := string_of_list_ascii b.

(** ** UTF-8: Go's [unicode/utf8] and the decoder of the [range] clause *)

Module Utf8.

Definition rune := Z.

Definition RuneError : rune := 0xFFFD.
Definition RuneSelf : Z := 0x80.
Definition MaxRune : rune := 0x10FFFF.

Definition surrogateMin : Z := 0xD800.
Definition surrogateMax : Z := 0xDFFF.

Definition tx : Z := 0x80.
Definition t2 : Z := 0xC0.
Definition t3 : Z := 0xE0.
Definition t4 : Z := 0xF0.
Definition t5 : Z := 0xF8.

Definition maskx : Z := 0x3F.
Definition mask2 : Z := 0x1F.
Definition mask3 : Z := 0x0F.
Definition mask4 : Z := 0x07.

Definition rune1Max : Z := 0x7F.
Definition rune2Max : Z := 0x7FF.
Definition rune3Max : Z := 0xFFFF.

Definition locb : Z := 0x80.
Definition hicb : Z := 0xBF.

(** [utf8.RuneLen]: the number of bytes of the encoding of [r], or [-1]
    when [r] is not a value that can be encoded. *)
Definition RuneLen (r : rune) : Z :=
  if r <? 0 then -1
  else if r <=? rune1Max then 1
  else if r <=? rune2Max then 2
  else if (surrogateMin <=? r) && (r <=? surrogateMax) then -1
  else if r <=? rune3Max then 3
  else if r <=? MaxRune then 4
  else -1.

(** The bytes [utf8.EncodeRune] writes for [r], first to last.  The switch
    is on [i := uint32(r)]; a value out of range or a surrogate is replaced
    by [RuneError] and falls through to the three-byte case. *)
Definition encodeBytes (r : rune) : list byte :=
  let i := r mod 2 ^ 32 in
  if i <=? rune1Max then
    [z2b r]
  else if i <=? rune2Max then
    [z2b (Z.lor t2 (u8 (Z.shiftr r 6)));
     z2b (Z.lor tx (Z.land (u8 r) maskx))]
  else
    let three (r : rune) :=
      [z2b (Z.lor t3 (u8 (Z.shiftr r 12)));
       z2b (Z.lor tx (Z.land (u8 (Z.shiftr r 6)) maskx));
       z2b (Z.lor tx (Z.land (u8 r) maskx))] in
    if (MaxRune <? i) || ((surrogateMin <=? i) && (i <=? surrogateMax)) then
      three RuneError
    else if i <=? rune3Max then
      three r
    else
      [z2b (Z.lor t4 (u8 (Z.shiftr r 18)));
       z2b (Z.lor tx (Z.land (u8 (Z.shiftr r 12)) maskx));
       z2b (Z.lor tx (Z.land (u8 (Z.shiftr r 6)) maskx));
       z2b (Z.lor tx (Z.land (u8 r) maskx))].

(** [p[i] = b] for each byte of [bs] from index [i] on; [None] is the
    index-out-of-range panic. *)
Fixpoint storeAt (p : list byte) (i : nat) (bs : list byte) : option (list byte) :=
  match bs with
  | [] => Some p
  | b :: bs' =>
      if decide (i < length p)%nat
      then storeAt (<[i := b]> p) (S i) bs'
      else None
  end.

(** [utf8.EncodeRune(p, r)]: writes the encoding of [r] into the buffer [p]
    and returns the buffer with the number of bytes written.  It panics when
    the buffer is too short. *)
Definition EncodeRune (p : list byte) (r : rune) : option (list byte * Z) :=
  let bs := encodeBytes r in
  p' ← storeAt p 0 bs;
  Some (p', Z.of_nat (length bs)).

(** The conversion [string(r)] of a rune (runtime [intstring]): the bytes
    [encoderune] writes into a four-byte buffer. *)
Definition string_of_rune (r : rune) : string :=
  match EncodeRune (replicate 4 zero) r with
  | Some (p, n) => string_of_bytes (take (Z.to_nat n) p)
  | None => EmptyString
  end.

Definition isCont (c : byte) : bool := (locb <=? b2z c) && (b2z c <=? hicb).

(** The runtime's [decoderune(s, k)], given here the suffix [s[k:]]; the
    result is the rune and the number of bytes [pos - k] it takes.  A
    sequence that is truncated, overlong, a surrogate or above [MaxRune]
    gives [(RuneError, 1)]. *)
Definition decoderune (s : list byte) : rune * nat :=
  match s with
  | [] => (RuneError, 1%nat)
  | s0 :: rest =>
      if (t2 <=? b2z s0) && (b2z s0 <? t3) then
        match rest with
        | s1 :: _ =>
            if isCont s1 then
              let r := Z.lor (Z.shiftl (Z.land (b2z s0) mask2) 6)
                             (Z.land (b2z s1) maskx) in
              if rune1Max <? r then (r, 2%nat) else (RuneError, 1%nat)
            else (RuneError, 1%nat)
        | _ => (RuneError, 1%nat)
        end
      else if (t3 <=? b2z s0) && (b2z s0 <? t4) then
        match rest with
        | s1 :: s2 :: _ =>
            if isCont s1 && isCont s2 then
              let r := Z.lor (Z.lor (Z.shiftl (Z.land (b2z s0) mask3) 12)
                                    (Z.shiftl (Z.land (b2z s1) maskx) 6))
                             (Z.land (b2z s2) maskx) in
              if (rune2Max <? r)
                 && negb ((surrogateMin <=? r) && (r <=? surrogateMax))
              then (r, 3%nat) else (RuneError, 1%nat)
            else (RuneError, 1%nat)
        | _ => (RuneError, 1%nat)
        end
      else if (t4 <=? b2z s0) && (b2z s0 <? t5) then
        match rest with
        | s1 :: s2 :: s3 :: _ =>
            if isCont s1 && isCont s2 && isCont s3 then
              let r := Z.lor (Z.lor (Z.lor (Z.shiftl (Z.land (b2z s0) mask4) 18)
                                           (Z.shiftl (Z.land (b2z s1) maskx) 12))
                                    (Z.shiftl (Z.land (b2z s2) maskx) 6))
                             (Z.land (b2z s3) maskx) in
              if (rune3Max <? r) && (r <=? MaxRune)
              then (r, 4%nat) else (RuneError, 1%nat)
            else (RuneError, 1%nat)
        | _ => (RuneError, 1%nat)
        end
      else (RuneError, 1%nat)
  end.

(** One iteration of [for _, r := range s] at the suffix [s]: a byte below
    [RuneSelf] is the rune itself, anything else goes through
    [decoderune]. *)
Definition rangeStep (s : list byte) : rune * nat :=
  match s with
  | [] => (RuneError, 1%nat)
  | c :: _ => if b2z c <? RuneSelf then (b2z c, 1%nat) else decoderune s
  end.

(** The runes [for _, r := range s] yields, in order.  [skip] counts the
    bytes of the current rune still to step over. *)
Fixpoint rangeFrom (skip : nat) (s : list byte) : list rune :=
  match s with
  | [] => []
  | _ :: rest =>
      match skip with
      | S k => rangeFrom k rest
      | O => let '(r, w) := rangeStep s in r :: rangeFrom (w - 1) rest
      end
  end.

Definition rangeRunes (s : string) : list rune :=
  rangeFrom 0 (bytes_of_string s).

End Utf8.

Import Utf8.

(** The code of a character literal, as in Go's ['A']. *)
Definition rc (c : ascii) : Z := b2z c.

(** ** [encoding/hex] and [strings.ToUpper] *)

Module Hex.

Definition hextable : string := "0123456789abcdef".

(** [hextable[i]]; the index is always below 16 here. *)
Definition hexAt (i : Z) : byte :=
  match String.get (Z.to_nat i) hextable with
  | Some c => c
  | None => zero
  end.

(** [hex.EncodeToString]: two lowercase digits per byte, high nibble
    first. *)
Fixpoint EncodeToString (src : list byte) : string :=
  match src with
  | [] => EmptyString
  | v :: src' =>
      String (hexAt (Z.shiftr (b2z v) 4))
        (String (hexAt (Z.land (b2z v) 0x0f)) (EncodeToString src'))
  end.

End Hex.

Module Strings.

(** [strings.ToUpper] on its ASCII path: ['a'..'z'] are moved to
    ['A'..'Z'], every other byte is kept.  (The only argument it receives
    in this file is the output of [hex.EncodeToString], which is ASCII.) *)
Definition upperByte (c : byte) : byte :=
  if (rc "a" <=? b2z c) && (b2z c <=? rc "z")
  then z2b (b2z c - (rc "a" - rc "A"))
  else c.

Fixpoint ToUpper (s : string) : string :=
  match s with
  | EmptyString => EmptyString
  | String c s' => String (upperByte c) (ToUpper s')
  end.

End Strings.

(** ** [signature/v4-utils.go] *)

(** *** [isValidRegion] *)

Definition REGION : string := "cn-bj-1".

Definition isValidRegion (reqRegion : string) : bool :=
  if String.eqb reqRegion "" then true
  else String.eqb reqRegion REGION.

(** *** [getURLEncodedName] *)

(** The character class of [reservedNames], the compiled pattern
    [^[a-zA-Z0-9-_.~/]+$]: three ranges and five single characters (under
    the Perl syntax of [regexp.MustCompile] a [-] that follows a complete
    range is a literal). *)
Definition reservedClass : list (ascii * ascii) :=
  [("a", "z"); ("A", "Z"); ("0", "9"); ("-", "-"); ("_", "_");
   (".", "."); ("~", "~"); ("/", "/")]%char.

Definition inClass (cls : list (ascii * ascii)) (r : rune) : bool :=
  existsb (fun '(lo, hi) => (rc lo <=? r) && (r <=? rc hi)) cls.

(** [reservedNames.MatchString]: the pattern is anchored at both ends of the
    text and asks for one or more runes of the class.  The matcher reads its
    input rune by rune, with the decoding of [range] (an invalid byte is
    [RuneError], which is not in the class). *)
Definition reservedNames_MatchString (name : string) : bool :=
  match rangeRunes name with
  | [] => false
  | rs => forallb (inClass reservedClass) rs
  end.

Definition isAlnum (s : rune) : bool :=
  (rc "A" <=? s) && (s <=? rc "Z")
  || (rc "a" <=? s) && (s <=? rc "z")
  || (rc "0" <=? s) && (s <=? rc "9").

Definition isMark (s : rune) : bool :=
  (s =? rc "-") || (s =? rc "_") || (s =? rc ".") || (s =? rc "~")
  || (s =? rc "/").

(** The inner loop [for _, r := range u]: one [%XX] per byte of [u]. *)
Definition appendEscapes (encodedName : string) (u : list byte) : string :=
  fold_left
    (fun encodedName r =>
       let hex := Hex.EncodeToString [r] in
       (encodedName +:+ "%") +:+ Strings.ToUpper hex)
    u encodedName.

(** The loop [for _, s := range name], over the runes the clause yields.
    [None] is a panic of [utf8.EncodeRune]. *)
Fixpoint encodeLoop (name : string) (runes : list rune) (encodedName : string)
  : option string :=
  match runes with
  | [] => Some encodedName
  | s :: runes' =>
      if isAlnum s then
        encodeLoop name runes' (encodedName +:+ string_of_rune s)
      else if isMark s then
        encodeLoop name runes' (encodedName +:+ string_of_rune s)
      else
        let len := RuneLen s in
        if len <? 0 then Some name
        else
          let u := replicate (Z.to_nat len) zero in
          match EncodeRune u s with
          | Some (u, _) => encodeLoop name runes' (appendEscapes encodedName u)
          | None => None
          end
  end.

Definition getURLEncodedName (name : string) : option string :=
  if reservedNames_MatchString name then Some name
  else encodeLoop name (rangeRunes name) "".

(** *** [sumHMAC]: [crypto/sha256] and [crypto/hmac] *)

Module Sha256.

Definition Size : nat := 32.
Definition BlockSize : nat := 64.

(** Arithmetic on [uint32] wraps around. *)
Definition u32 (z : Z) : Z := z mod 2 ^ 32.
Definition add32 (x y : Z) : Z := u32 (x + y).

(** [bits.RotateLeft32(x, -n)]. *)
Definition rotr (x n : Z) : Z :=
  Z.lor (Z.shiftr x n) (u32 (Z.shiftl x (32 - n))).

Definition _K : list Z :=
  [0x428A2F98; 0x71374491; 0xB5C0FBCF; 0xE9B5DBA5; 0x3956C25B; 0x59F111F1;
   0x923F82A4; 0xAB1C5ED5; 0xD807AA98; 0x12835B01; 0x243185BE; 0x550C7DC3;
   0x72BE5D74; 0x80DEB1FE; 0x9BDC06A7; 0xC19BF174; 0xE49B69C1; 0xEFBE4786;
   0x0FC19DC6; 0x240CA1CC; 0x2DE92C6F; 0x4A7484AA; 0x5CB0A9DC; 0x76F988DA;
   0x983E5152; 0xA831C66D; 0xB00327C8; 0xBF597FC7; 0xC6E00BF3; 0xD5A79147;
   0x06CA6351; 0x14292967; 0x27B70A85; 0x2E1B2138; 0x4D2C6DFC; 0x53380D13;
   0x650A7354; 0x766A0ABB; 0x81C2C92E; 0x92722C85; 0xA2BFE8A1; 0xA81A664B;
   0xC24B8B70; 0xC76C51A3; 0xD192E819; 0xD6990624; 0xF40E3585; 0x106AA070;
   0x19A4C116; 0x1E376C08; 0x2748774C; 0x34B0BCB5; 0x391C0CB3; 0x4ED8AA4A;
   0x5B9CCA4F; 0x682E6FF3; 0x748F82EE; 0x78A5636F; 0x84C87814; 0x8CC70208;
   0x90BEFFFA; 0xA4506CEB; 0xBEF9A3F7; 0xC67178F2].

(** The chaining value [dig.h], eight [uint32]. *)
Definition state : Type := Z * Z * Z * Z * Z * Z * Z * Z.

Definition init : state :=
  (0x6a09e667, 0xbb67ae85, 0x3c6ef372, 0xa54ff53a,
   0x510e527f, 0x9b05688c, 0x1f83d9ab, 0x5be0cd19).

(** [w[i]] for [i < 16]: the block read as big-endian words. *)
Fixpoint words (n : nat) (p : list byte) : list Z :=
  match n with
  | O => []
  | S n' =>
      let b (j : nat) := b2z (nth j p zero) in
      Z.lor (Z.lor (Z.lor (Z.shiftl (b 0%nat) 24) (Z.shiftl (b 1%nat) 16))
                   (Z.shiftl (b 2%nat) 8)) (b 3%nat)
      :: words n' (drop 4 p)
  end.

(** [w[i]] for [i >= 16], from [w[i-16 .. i-1]]. *)
Definition nextWord (win : list Z) : Z :=
  let w (j : nat) := nth j win 0 in
  let v1 := w 14%nat in
  let t1 := Z.lxor (Z.lxor (rotr v1 17) (rotr v1 19)) (Z.shiftr v1 10) in
  let v2 := w 1%nat in
  let t2 := Z.lxor (Z.lxor (rotr v2 7) (rotr v2 18)) (Z.shiftr v2 3) in
  add32 (add32 (add32 t1 (w 9%nat)) t2) (w 0%nat).

(** The first [n] words of the schedule that starts with the window
    [win] of sixteen words. *)
Fixpoint schedule (n : nat) (win : list Z) : list Z :=
  match n with
  | O => []
  | S n' =>
      match win with
      | [] => []
      | w0 :: rest => w0 :: schedule n' (rest ++ [nextWord win])
      end
  end.

(** One round, with [kw = (_K[i], w[i])]. *)
Definition round (s : state) (kw : Z * Z) : state :=
  let '(a, b, c, d, e, f, g, h) := s in
  let '(k, w) := kw in
  let t1 :=
    add32 (add32 (add32 (add32 h
      (Z.lxor (Z.lxor (rotr e 6) (rotr e 11)) (rotr e 25)))
      (Z.lxor (Z.land e f) (Z.land (u32 (Z.lnot e)) g))) k) w in
  let t2 :=
    add32 (Z.lxor (Z.lxor (rotr a 2) (rotr a 13)) (rotr a 22))
          (Z.lxor (Z.lxor (Z.land a b) (Z.land a c)) (Z.land b c)) in
  (add32 t1 t2, a, b, c, add32 d t1, e, f, g).

(** [blockGeneric] on one chunk of 64 bytes. *)
Definition block (hs : state) (p : list byte) : state :=
  let w := schedule 64 (words 16 p) in
  let '(a, b, c, d, e, f, g, h) := fold_left round (combine _K w) hs in
  let '(h0, h1, h2, h3, h4, h5, h6, h7) := hs in
  (add32 h0 a, add32 h1 b, add32 h2 c, add32 h3 d,
   add32 h4 e, add32 h5 f, add32 h6 g, add32 h7 h).

(** [blockGeneric] on [n] chunks. *)
Fixpoint blocks (n : nat) (hs : state) (p : list byte) : state :=
  match n with
  | O => hs
  | S n' => blocks n' (block hs (take 64 p)) (drop 64 p)
  end.

(** Big-endian bytes of an integer, [n] of them
    ([binary.BigEndian.PutUint32], [PutUint64]). *)
Fixpoint bigEndian (n : nat) (z : Z) : list byte :=
  match n with
  | O => []
  | S n' => z2b (Z.shiftr z (8 * Z.of_nat n')) :: bigEndian n' z
  end.

(** The padding [checkSum] writes after [len] bytes of message: [0x80],
    zeros up to 56 modulo 64, then the length in bits as a [uint64]. *)
Definition padding (len : Z) : list byte :=
  let t := if len mod 64 <? 56 then 56 - len mod 64
           else 64 + 56 - len mod 64 in
  z2b 0x80 :: replicate (Z.to_nat (t - 1)) zero
  ++ bigEndian 8 ((len * 8) mod 2 ^ 64).

(** The 32 bytes of [checkSum] for the message [msg]. *)
Definition checkSum (msg : list byte) : list byte :=
  let p := msg ++ padding (Z.of_nat (length msg)) in
  let '(h0, h1, h2, h3, h4, h5, h6, h7) :=
    blocks (length p / 64) init p in
  bigEndian 4 h0 ++ bigEndian 4 h1 ++ bigEndian 4 h2 ++ bigEndian 4 h3
  ++ bigEndian 4 h4 ++ bigEndian 4 h5 ++ bigEndian 4 h6 ++ bigEndian 4 h7.

(** A [hash.Hash] made by [sha256.New]: what matters of its state is the
    bytes written since the last [Reset] (Go keeps the chaining value of
    the complete chunks and the incomplete one; [Sum] works on a copy). *)
Record digest := { written : list byte }.

Definition New : digest := {| written := [] |}.
Definition Reset (d : digest) : digest := {| written := [] |}.
Definition Write (d : digest) (p : list byte) : digest :=
  {| written := written d ++ p |}.
Definition Sum (d : digest) (b : list byte) : list byte :=
  b ++ checkSum (written d).

End Sha256.

Module Hmac.

Record hmac := {
  opad : list byte;
  ipad : list byte;
  outer : Sha256.digest;
  inner : Sha256.digest
}.

(** [copy(dst, src)]. *)
Definition copy (dst src : list byte) : list byte :=
  take (length dst) src ++ drop (length src) dst.

Definition xorBytes (k : Z) (p : list byte) : list byte :=
  map (fun c => z2b (Z.lxor (b2z c) k)) p.

(** [hmac.New(sha256.New, key)]. *)
Definition New (key : list byte) : hmac :=
  let outer := Sha256.New in
  let inner := Sha256.New in
  let blocksize := Sha256.BlockSize in
  let ipad := replicate blocksize zero in
  let opad := replicate blocksize zero in
  let '(outer, key) :=
    if (blocksize <? length key)%nat
    then let outer := Sha256.Write outer key in
         (outer, Sha256.Sum outer [])
    else (outer, key) in
  let ipad := xorBytes 0x36 (copy ipad key) in
  let opad := xorBytes 0x5c (copy opad key) in
  let inner := Sha256.Write inner ipad in
  {| opad := opad; ipad := ipad; outer := outer; inner := inner |}.

Definition Write (h : hmac) (p : list byte) : hmac :=
  {| opad := opad h; ipad := ipad h; outer := outer h;
     inner := Sha256.Write (inner h) p |}.

Definition Sum (h : hmac) (b : list byte) : list byte :=
  let origLen := length b in
  let b := Sha256.Sum (inner h) b in
  let outer := Sha256.Reset (outer h) in
  let outer := Sha256.Write outer (opad h) in
  let outer := Sha256.Write outer (drop origLen b) in
  Sha256.Sum outer (take origLen b).

End Hmac.

Definition sumHMAC (key data : list byte) : list byte :=
  let hash := Hmac.New key in
  let hash := Hmac.Write hash data in
  Hmac.Sum hash [].

(** *** [getCanonicalHeaders]: [net/http] *)

Module Http.

(** [validHeaderFieldByte]: the [token] characters of RFC 7230. *)
Definition validHeaderFieldByte (c : byte) : bool :=
  inClass [("0", "9"); ("a", "z"); ("A", "Z")]%char (b2z c)
  || existsb (fun m => b2z c =? rc m)
       ["!"; "#"; "$"; "%"; "&"; "'"; "*"; "+"; "-"; "."; "^"; "_"; "`";
        "|"; "~"]%char.

Definition isLower (c : byte) : bool := (rc "a" <=? b2z c) && (b2z c <=? rc "z").
Definition isUpper (c : byte) : bool := (rc "A" <=? b2z c) && (b2z c <=? rc "Z").
Definition toLower : Z := rc "a" - rc "A".

(** The second loop of [canonicalMIMEHeaderKey]: upper case for the first
    letter and for a letter after a dash, lower case elsewhere. *)
Fixpoint canonicalize (upper : bool) (a : list byte) : list byte :=
  match a with
  | [] => []
  | c :: a' =>
      let c := if upper && isLower c then z2b (b2z c - toLower)
               else if negb upper && isUpper c then z2b (b2z c + toLower)
               else c in
      c :: canonicalize (b2z c =? rc "-") a'
  end.

(** The first loop of [canonicalMIMEHeaderKey]: [Some noCanon] when every
    byte is a valid field byte or a space, [None] at another byte. *)
Fixpoint scanKey (noCanon : bool) (a : list byte) : option bool :=
  match a with
  | [] => Some noCanon
  | c :: a' =>
      if validHeaderFieldByte c then scanKey noCanon a'
      else if b2z c =? rc " " then scanKey true a'
      else None
  end.

Definition canonicalMIMEHeaderKey (a : list byte) : string :=
  match scanKey false a with
  | None => string_of_bytes a
  | Some true => string_of_bytes a
  | Some false => string_of_bytes (canonicalize true a)
  end.

(** The quick check of [textproto.CanonicalMIMEHeaderKey]: [None] when the
    loop returns [s] itself (at an invalid byte, or at the end of a key
    already canonical), [Some _] when it hands the key over to
    [canonicalMIMEHeaderKey]. *)
Fixpoint quickCheck (upper : bool) (s : list byte) : option string -> option string :=
  fun canon =>
  match s with
  | [] => None
  | c :: s' =>
      if negb (validHeaderFieldByte c) then None
      else if upper && isLower c then canon
      else if negb upper && isUpper c then canon
      else quickCheck (b2z c =? rc "-") s' canon
  end.

(** [http.CanonicalHeaderKey], that is [textproto.CanonicalMIMEHeaderKey]. *)
Definition CanonicalHeaderKey (s : string) : string :=
  match quickCheck true (bytes_of_string s)
          (Some (canonicalMIMEHeaderKey (bytes_of_string s))) with
  | Some s' => s'
  | None => s
  end.

(** What [getCanonicalHeaders] reads of an [http.Request]: the header map
    and the [Host] field. *)
Record Request := {
  Header : gmap string (list string);
  Host : string
}.

End Http.

Import Http.

(** Modelled from the spec: the error value [ErrMissingRequiredSignedHeader]
    of package [yig/error], which [v4-utils.go] imports; it is the single
    sentinel error [getCanonicalHeaders] returns. *)
Inductive error : Set := ErrMissingRequiredSignedHeader.

(** The line feed ["\n"]. *)
Definition LF : string := String "010" EmptyString.

(** The loop [for idx, v := range values]. *)
Fixpoint appendValues (idx : nat) (values : list string) (canonicalHeaders : string)
  : string :=
  match values with
  | [] => canonicalHeaders
  | v :: values' =>
      let canonicalHeaders :=
        if (0 <? idx)%nat then canonicalHeaders +:+ "," else canonicalHeaders in
      appendValues (S idx) values' (canonicalHeaders +:+ v)
  end.

(** The loop [for _, header := range signedHeaders]; the result is the pair
    [(string, error)] with [None] for a nil error. *)
Fixpoint headersLoop (signedHeaders : list string) (req : Request)
    (canonicalHeaders : string) : string * option error :=
  match signedHeaders with
  | [] => (canonicalHeaders, None)
  | header :: signedHeaders' =>
      let '(values, ok) :=
        match Header req !! CanonicalHeaderKey header with
        | Some values => (values, true)
        | None => ([], false)
        end in
      let '(values, ok) :=
        if String.eqb header "expect" then (["100-continue"%string], true)
        else (values, ok) in
      let '(values, ok) :=
        if String.eqb header "host" then ([Host req], true)
        else (values, ok) in
      if negb ok then (EmptyString, Some ErrMissingRequiredSignedHeader)
      else
        let canonicalHeaders := canonicalHeaders +:+ (header +:+ ":") in
        let canonicalHeaders := appendValues 0 values canonicalHeaders in
        headersLoop signedHeaders' req (canonicalHeaders +:+ LF)
  end.

Definition getCanonicalHeaders (signedHeaders : list string) (req : Request)
  : string * option error :=
  headersLoop signedHeaders req "".

(** ** Reference definitions used in the statements *)

(** The unreserved bytes of the resource encoder: ASCII letters, digits and
    [- _ . ~ /]. *)
Definition unreservedByte (c : byte) : bool :=
  let n := b2z c in
  (65 <=? n) && (n <=? 90) || (97 <=? n) && (n <=? 122)
  || (48 <=? n) && (n <=? 57)
  || (n =? 45) || (n =? 95) || (n =? 46) || (n =? 126) || (n =? 47).

(** A string made of unreserved bytes only. *)
Definition allUnreserved (s : string) : bool :=
  forallb unreservedByte (bytes_of_string s).

Definition unreservedRune (r : rune) : bool :=
  (0 <=? r) && (r <? 128) && unreservedByte (z2b r).

(** A Unicode scalar value: a code point that is not a surrogate. *)
Definition isScalar (c : Z) : bool :=
  (0 <=? c) && (c <=? 0x10FFFF) && negb ((0xD800 <=? c) && (c <=? 0xDFFF)).

(** The UTF-8 encoding of a scalar value, as RFC 3629 section 3 tabulates
    it: one to four bytes, most significant bits first. *)
Definition utf8 (c : Z) : list byte :=
  if c <? 0x80 then
    [z2b c]
  else if c <? 0x800 then
    [z2b (0xC0 + c / 64); z2b (0x80 + c mod 64)]
  else if c <? 0x10000 then
    [z2b (0xE0 + c / 4096); z2b (0x80 + (c / 64) mod 64);
     z2b (0x80 + c mod 64)]
  else
    [z2b (0xF0 + c / 262144); z2b (0x80 + (c / 4096) mod 64);
     z2b (0x80 + (c / 64) mod 64); z2b (0x80 + c mod 64)].

(** The string that holds the code points [cs] in UTF-8. *)
Definition utf8String (cs : list Z) : string :=
  string_of_bytes (flat_map utf8 cs).

(** One uppercase hexadecimal digit. *)
Definition upperHexDigit (n : Z) : byte :=
  match String.get (Z.to_nat n) "0123456789ABCDEF" with
  | Some c => c
  | None => zero
  end.

(** The triplet [%XX] of a byte. *)
Definition percentTriplet (b : byte) : string :=
  String "%" (String (upperHexDigit (b2z b / 16))
                     (String (upperHexDigit (b2z b mod 16)) EmptyString)).

Fixpoint concatStrings (l : list string) : string :=
  match l with
  | [] => EmptyString
  | s :: l' => s +:+ concatStrings l'
  end.

(** What the encoder emits for one code point. *)
Definition encodeCodePoint (c : Z) : string :=
  if unreservedRune c then String (z2b c) EmptyString
  else concatStrings (map percentTriplet (utf8 c)).

(** The values [getCanonicalHeaders] uses for a signed header, [None] when
    the header counts as missing. *)
Definition signedValues (req : Request) (header : string) : option (list string) :=
  if decide (header = "expect"%string) then Some ["100-continue"%string]
  else if decide (header = "host"%string) then Some [Host req]
  else Header req !! CanonicalHeaderKey header.

(** [strings.Join(values, ",")]. *)
Fixpoint joinComma (values : list string) : string :=
  match values with
  | [] => EmptyString
  | [v] => v
  | v :: values' => v +:+ "," +:+ joinComma values'
  end.

(** One line of the canonical header block. *)
Definition headerLine (header : string) (values : list string) : string :=
  header +:+ ":" +:+ joinComma values +:+ LF.

(** The canonical header block of a list of signed headers, [None] when one
    of them is missing. *)
Fixpoint canonicalLines (req : Request) (signedHeaders : list string)
  : option string :=
  match signedHeaders with
  | [] => Some EmptyString
  | header :: signedHeaders' =>
      match signedValues req header, canonicalLines req signedHeaders' with
      | Some values, Some lines => Some (headerLine header values +:+ lines)
      | _, _ => None
      end
  end.

(** A string of bytes below [0x80]. *)
Definition asciiOnly (s : string) : bool :=
  forallb (fun b => b2z b <? 128) (bytes_of_string s).

(** A string that is the UTF-8 of a list of scalar values; any other string
    holds a malformed sequence. *)
Definition validUTF8 (s : string) : Prop :=
  exists cs, Forall (fun c => isScalar c = true) cs /\ s = utf8String cs.

(** ASCII case folding of a header name: ['A'..'Z'] to ['a'..'z']. *)
Definition lowerByte (c : byte) : byte :=
  if Http.isUpper c then z2b (b2z c + Http.toLower) else c.

(** Two names that differ in the case of ASCII letters only. *)
Definition sameFold (s t : string) : Prop :=
  map lowerByte (bytes_of_string s) = map lowerByte (bytes_of_string t).

(** A name made of valid header field bytes. *)
Definition validName (s : string) : bool :=
  forallb Http.validHeaderFieldByte (bytes_of_string s).

(** Every byte of a string passes the test [P]. *)
Definition allBytes (P : byte -> bool) (s : string) : bool :=
  forallb P (bytes_of_string s).

(** A byte that an encoded name may hold: an unreserved byte or [%]. *)
Definition escapedByte (b : byte) : bool :=
  unreservedByte b || (b2z b =? 37).

(** The value of a hexadecimal digit, in either case. *)
Definition hexValue (c : byte) : option Z :=
  let n := b2z c in
  if (48 <=? n) && (n <=? 57) then Some (n - 48)
  else if (65 <=? n) && (n <=? 70) then Some (n - 55)
  else if (97 <=? n) && (n <=? 102) then Some (n - 87)
  else None.

(** Percent-decoding: [%XY] stands for the byte of hexadecimal value [XY],
    any other byte for itself; [None] at a [%] that two hexadecimal digits
    do not follow. *)
Fixpoint percentDecode (s : string) : option string :=
  match s with
  | EmptyString => Some EmptyString
  | String c rest =>
      if b2z c =? 37 then
        match rest with
        | String h (String l rest') =>
            match hexValue h, hexValue l, percentDecode rest' with
            | Some x, Some y, Some t => Some (String (z2b (16 * x + y)) t)
            | _, _, _ => None
            end
        | _ => None
        end
      else
        match percentDecode rest with
        | Some t => Some (String c t)
        | None => None
        end
  end.

(** HMAC as RFC 2104 section 2 words it, for a hash [H] of block size [B]:
    a key longer than [B] is replaced by its hash, zeros are appended to the
    key up to [B] bytes, and the result is
    [H (K xor opad, H (K xor ipad, text))]. *)
Definition hmacRFC2104 (H : list byte -> list byte) (B : nat)
    (key text : list byte) : list byte :=
  let k0 := if (B <? length key)%nat then H key else key in
  let k := k0 ++ replicate (B - length k0) zero in
  H (map (fun c => z2b (Z.lxor (b2z c) 0x5c)) k
     ++ H (map (fun c => z2b (Z.lxor (b2z c) 0x36)) k ++ text)).

(** The byte [canonicalize] writes for [c]: upper case when [upper] is set,
    lower case otherwise. *)
Definition canonByte (upper : bool) (c : byte) : byte :=
  if upper && Http.isLower c then z2b (b2z c - Http.toLower)
  else if negb upper && Http.isUpper c then z2b (b2z c + Http.toLower)
  else c.

(** ** Bytes and strings: basic facts *)

Lemma b2z_range (c : byte) : 0 <= b2z c < 256.
Proof.
  unfold b2z. pose proof (N_ascii_bounded c). lia.
Qed.

Lemma z2b_b2z (c : byte) : z2b (b2z c) = c.
Proof.
  unfold z2b, u8. rewrite Z.mod_small by apply b2z_range.
  unfold b2z. rewrite N2Z.id. apply ascii_N_embedding.
Qed.

Lemma b2z_z2b (z : Z) : b2z (z2b z) = z mod 256.
Proof.
  unfold z2b, b2z, u8.
  assert (H : 0 <= z mod 256 < 256) by (apply Z.mod_pos_bound; lia).
  rewrite N_ascii_embedding by lia. lia.
Qed.

Lemma b2z_z2b_small (z : Z) : 0 <= z < 256 -> b2z (z2b z) = z.
Proof. intros H. rewrite b2z_z2b. apply Z.mod_small, H. Qed.

Lemma b2z_inj (c d : byte) : b2z c = b2z d -> c = d.
Proof. intros H. rewrite <- (z2b_b2z c), <- (z2b_b2z d). now rewrite H. Qed.

Lemma append_nil_l (s : string) : "" +:+ s = s.
Proof. reflexivity. Qed.

Lemma append_cons (c : ascii) (s t : string) :
  String c s +:+ t = String c (s +:+ t).
Proof. reflexivity. Qed.

Lemma append_nil_r (s : string) : s +:+ "" = s.
Proof.
  induction s as [|c s IH]; [reflexivity|].
  now rewrite append_cons, IH.
Qed.

Lemma append_assoc (s t u : string) : (s +:+ t) +:+ u = s +:+ t +:+ u.
Proof.
  induction s as [|c s IH]; [reflexivity|].
  now rewrite !append_cons, IH.
Qed.

Lemma string_of_bytes_app (a b : list byte) :
  string_of_bytes (a ++ b) = string_of_bytes a +:+ string_of_bytes b.
Proof.
  induction a as [|c a IH]; [reflexivity|].
  simpl. now rewrite append_cons, IH.
Qed.

Lemma bytes_of_string_of_bytes (a : list byte) :
  bytes_of_string (string_of_bytes a) = a.
Proof. apply list_ascii_of_string_of_list_ascii. Qed.

Lemma string_of_bytes_of_string (s : string) :
  string_of_bytes (bytes_of_string s) = s.
Proof. apply string_of_list_ascii_of_string. Qed.

Lemma concatStrings_app (l m : list string) :
  concatStrings (l ++ m) = concatStrings l +:+ concatStrings m.
Proof.
  induction l as [|s l IH]; simpl; [reflexivity|].
  now rewrite IH, append_assoc.
Qed.

Ltac strapp :=
  repeat (rewrite ?append_nil_l, ?append_cons, ?append_nil_r, ?append_assoc).


(** ** Bit operations as arithmetic *)

Section BitArith.

(** An [or] of two numbers with no common bit is their sum. *)
Lemma lor_plus (y x k : Z) :
  0 <= k -> 0 <= x < 2 ^ k -> y mod 2 ^ k = 0 -> Z.lor y x = y + x.
Proof.
  intros Hk Hx Hy.
  assert (H0 : Z.land y x = 0).
  { apply Z.bits_inj'. intros n Hn.
    rewrite Z.land_spec, Z.bits_0.
    destruct (Z.lt_ge_cases n k) as [Hlt | Hge].
    - assert (Ey : y = y / 2 ^ k * 2 ^ k).
      { pose proof (Z.div_mod y (2 ^ k)). lia. }
      rewrite Ey, Z.mul_pow2_bits_low by lia. reflexivity.
    - rewrite <- (Z.mod_small x (2 ^ k)) by lia.
      rewrite Z.mod_pow2_bits_high by lia. apply andb_false_r. }
  rewrite <- Z.lxor_lor by exact H0.
  symmetry. apply Z.add_nocarry_lxor, H0.
Qed.

Lemma land_mask (x k : Z) : 0 <= k -> Z.land x (2 ^ k - 1) = x mod 2 ^ k.
Proof.
  intros Hk. rewrite <- Z.land_ones by exact Hk.
  now rewrite Z.ones_equiv, <- Z.sub_1_r.
Qed.

Lemma land_maskx (x : Z) : Z.land x maskx = x mod 64.
Proof. apply (land_mask x 6). lia. Qed.

Lemma land_mask2 (x : Z) : Z.land x mask2 = x mod 32.
Proof. apply (land_mask x 5). lia. Qed.

Lemma land_mask3 (x : Z) : Z.land x mask3 = x mod 16.
Proof. apply (land_mask x 4). lia. Qed.

Lemma land_mask4 (x : Z) : Z.land x mask4 = x mod 8.
Proof. apply (land_mask x 3). lia. Qed.

Lemma lor_tx (x : Z) : 0 <= x < 64 -> Z.lor tx x = 128 + x.
Proof. intros H. apply (lor_plus 128 x 6); [lia | exact H | reflexivity]. Qed.

Lemma lor_t2 (x : Z) : 0 <= x < 32 -> Z.lor t2 x = 192 + x.
Proof. intros H. apply (lor_plus 192 x 5); [lia | exact H | reflexivity]. Qed.

Lemma lor_t3 (x : Z) : 0 <= x < 16 -> Z.lor t3 x = 224 + x.
Proof. intros H. apply (lor_plus 224 x 4); [lia | exact H | reflexivity]. Qed.

Lemma lor_t4 (x : Z) : 0 <= x < 8 -> Z.lor t4 x = 240 + x.
Proof. intros H. apply (lor_plus 240 x 3); [lia | exact H | reflexivity]. Qed.

Lemma shiftr_div (x k : Z) : 0 <= k -> Z.shiftr x k = x / 2 ^ k.
Proof. intros H. now apply Z.shiftr_div_pow2. Qed.

(** The value [decoderune] assembles from two, three and four bytes. *)
Lemma assemble2 (a b : Z) :
  0 <= a < 32 -> 0 <= b < 64 ->
  Z.lor (Z.shiftl a 6) b = a * 64 + b.
Proof.
  intros Ha Hb. rewrite Z.shiftl_mul_pow2 by lia.
  apply (lor_plus _ b 6); [lia | exact Hb |].
  change (2 ^ 6) with 64. apply Z.mod_mul. lia.
Qed.

Lemma assemble3 (a b c : Z) :
  0 <= a < 16 -> 0 <= b < 64 -> 0 <= c < 64 ->
  Z.lor (Z.lor (Z.shiftl a 12) (Z.shiftl b 6)) c = a * 4096 + b * 64 + c.
Proof.
  intros Ha Hb Hc. rewrite !Z.shiftl_mul_pow2 by lia.
  change (2 ^ 12) with 4096. change (2 ^ 6) with 64.
  rewrite (lor_plus (a * 4096) (b * 64) 12); [| lia | lia |].
  - apply (lor_plus _ c 6); [lia | exact Hc |].
    change (2 ^ 6) with 64.
    replace (a * 4096 + b * 64) with ((a * 64 + b) * 64) by lia.
    apply Z.mod_mul. lia.
  - change (2 ^ 12) with 4096. apply Z.mod_mul. lia.
Qed.

Lemma assemble4 (a b c d : Z) :
  0 <= a < 8 -> 0 <= b < 64 -> 0 <= c < 64 -> 0 <= d < 64 ->
  Z.lor (Z.lor (Z.lor (Z.shiftl a 18) (Z.shiftl b 12)) (Z.shiftl c 6)) d
  = a * 262144 + b * 4096 + c * 64 + d.
Proof.
  intros Ha Hb Hc Hd. rewrite !Z.shiftl_mul_pow2 by lia.
  change (2 ^ 18) with 262144. change (2 ^ 12) with 4096.
  change (2 ^ 6) with 64.
  rewrite (lor_plus (a * 262144) (b * 4096) 18); [| lia | lia |].
  - rewrite (lor_plus _ (c * 64) 12); [| lia | lia |].
    + apply (lor_plus _ d 6); [lia | exact Hd |].
      change (2 ^ 6) with 64.
      replace (a * 262144 + b * 4096 + c * 64)
        with ((a * 4096 + b * 64 + c) * 64) by lia.
      apply Z.mod_mul. lia.
    + change (2 ^ 12) with 4096.
      replace (a * 262144 + b * 4096) with ((a * 64 + b) * 4096) by lia.
      apply Z.mod_mul. lia.
  - change (2 ^ 18) with 262144. apply Z.mod_mul. lia.
Qed.

End BitArith.

(** ** The encoder agrees with RFC 3629 on scalar values *)

Ltac zcases :=
  repeat match goal with
    | |- context [?a <=? ?b] => destruct (Z.leb_spec a b)
    | |- context [?a <? ?b] => destruct (Z.ltb_spec a b)
    | |- context [?a =? ?b] => destruct (Z.eqb_spec a b)
    end.

Lemma isScalar_spec (c : Z) :
  isScalar c = true <-> 0 <= c <= 0x10FFFF /\ ~ (0xD800 <= c <= 0xDFFF).
Proof.
  unfold isScalar. zcases; simpl; split; intros; try discriminate; try lia; reflexivity.
Qed.

Lemma u8_mod64 (x : Z) : u8 x mod 64 = x mod 64.
Proof.
  unfold u8. Z.div_mod_to_equations. lia.
Qed.

Lemma cont_low (c : Z) : Z.lor tx (Z.land (u8 c) maskx) = 128 + c mod 64.
Proof.
  rewrite land_maskx, u8_mod64. apply lor_tx. apply Z.mod_pos_bound. lia.
Qed.

Lemma lead2 (c : Z) :
  0 <= c < 0x800 -> Z.lor t2 (u8 (Z.shiftr c 6)) = 192 + c / 64.
Proof.
  intros H. rewrite shiftr_div by lia. change (2 ^ 6) with 64.
  assert (0 <= c / 64 < 32) by (split; [apply Z.div_pos | apply Z.div_lt_upper_bound]; lia).
  unfold u8. rewrite Z.mod_small by lia. now apply lor_t2.
Qed.

Lemma lead3 (c : Z) :
  0 <= c < 0x10000 -> Z.lor t3 (u8 (Z.shiftr c 12)) = 224 + c / 4096.
Proof.
  intros H. rewrite shiftr_div by lia. change (2 ^ 12) with 4096.
  assert (0 <= c / 4096 < 16) by (split; [apply Z.div_pos | apply Z.div_lt_upper_bound]; lia).
  unfold u8. rewrite Z.mod_small by lia. now apply lor_t3.
Qed.

Lemma lead4 (c : Z) :
  0 <= c < 0x200000 -> Z.lor t4 (u8 (Z.shiftr c 18)) = 240 + c / 262144.
Proof.
  intros H. rewrite shiftr_div by lia. change (2 ^ 18) with 262144.
  assert (0 <= c / 262144 < 8) by (split; [apply Z.div_pos | apply Z.div_lt_upper_bound]; lia).
  unfold u8. rewrite Z.mod_small by lia. now apply lor_t4.
Qed.

Lemma encodeBytes_utf8 (c : Z) : isScalar c = true -> encodeBytes c = utf8 c.
Proof.
  intros Hc. apply isScalar_spec in Hc. destruct Hc as [Hr Hs].
  unfold encodeBytes, utf8. cbv beta zeta.
  rewrite (Z.mod_small c (2 ^ 32)) by lia.
  rewrite !cont_low.
  unfold rune1Max, rune2Max, rune3Max, MaxRune, surrogateMin, surrogateMax.
  zcases; simpl; try lia; try reflexivity.
  all: rewrite ?lead2, ?lead3, ?lead4, ?shiftr_div by lia; reflexivity.
Qed.

Lemma utf8_length (c : Z) :
  isScalar c = true -> RuneLen c = Z.of_nat (length (utf8 c)).
Proof.
  intros Hc. apply isScalar_spec in Hc. destruct Hc as [Hr Hs].
  unfold RuneLen, utf8.
  unfold rune1Max, rune2Max, rune3Max, MaxRune, surrogateMin, surrogateMax.
  zcases; simpl; try lia; reflexivity.
Qed.

(** ** The decoder of [range] *)

Ltac decode_arith :=
  rewrite ?land_mask2, ?land_mask3, ?land_mask4, ?land_maskx;
  rewrite ?assemble2, ?assemble3, ?assemble4 by (apply Z.mod_pos_bound; lia).

Lemma isScalar_RuneError : isScalar RuneError = true.
Proof. reflexivity. Qed.

(** Whatever the bytes, [decoderune] returns a scalar value whose encoding
    has the length it reports, or [RuneError] with length one. *)
Lemma decoderune_result (s : list byte) :
  let '(r, w) := decoderune s in
  isScalar r = true
  /\ ((r = RuneError /\ w = 1%nat) \/ (128 <= r /\ RuneLen r = Z.of_nat w)).
Proof.
  assert (HE : isScalar RuneError = true
               /\ ((RuneError = RuneError /\ 1%nat = 1%nat)
                   \/ (128 <= RuneError /\ RuneLen RuneError = Z.of_nat 1)))
    by (split; [reflexivity | left; split; reflexivity]).
  unfold decoderune.
  destruct s as [|s0 rest]; [exact HE|].
  pose proof (b2z_range s0) as H0.
  destruct ((t2 <=? b2z s0) && (b2z s0 <? t3)) eqn:E2.
  { destruct rest as [|s1 rest]; [exact HE|].
    destruct (isCont s1); [|exact HE].
    decode_arith.
    pose proof (Z.mod_pos_bound (b2z s0) 32 ltac:(lia)).
    pose proof (Z.mod_pos_bound (b2z s1) 64 ltac:(lia)).
    set (r := b2z s0 mod 32 * 64 + b2z s1 mod 64) in *.
    assert (0 <= r < 2048) by (subst r; lia).
    unfold rune1Max. destruct (Z.ltb_spec 127 r); [|exact HE].
    split; [apply isScalar_spec; lia|]. right. split; [lia|].
    unfold RuneLen, rune1Max, rune2Max. zcases; simpl; lia. }
  destruct ((t3 <=? b2z s0) && (b2z s0 <? t4)) eqn:E3.
  { destruct rest as [|s1 [|s2 rest]]; [exact HE | exact HE |].
    destruct (isCont s1 && isCont s2); [|exact HE].
    decode_arith.
    pose proof (Z.mod_pos_bound (b2z s0) 16 ltac:(lia)).
    pose proof (Z.mod_pos_bound (b2z s1) 64 ltac:(lia)).
    pose proof (Z.mod_pos_bound (b2z s2) 64 ltac:(lia)).
    set (r := b2z s0 mod 16 * 4096 + b2z s1 mod 64 * 64 + b2z s2 mod 64) in *.
    assert (0 <= r < 65536) by (subst r; lia).
    unfold rune2Max, surrogateMin, surrogateMax.
    destruct (Z.ltb_spec 2047 r); [|exact HE].
    destruct (Z.leb_spec 55296 r), (Z.leb_spec r 57343);
      simpl; try exact HE.
    all: (split; [apply isScalar_spec; lia|]); right; (split; [lia|]).
    all: unfold RuneLen, rune1Max, rune2Max, rune3Max, surrogateMin, surrogateMax;
      zcases; simpl; lia. }
  destruct ((t4 <=? b2z s0) && (b2z s0 <? t5)) eqn:E4; [|exact HE].
  destruct rest as [|s1 [|s2 [|s3 rest]]]; [exact HE | exact HE | exact HE |].
  destruct (isCont s1 && isCont s2 && isCont s3); [|exact HE].
  decode_arith.
  pose proof (Z.mod_pos_bound (b2z s0) 8 ltac:(lia)).
  pose proof (Z.mod_pos_bound (b2z s1) 64 ltac:(lia)).
  pose proof (Z.mod_pos_bound (b2z s2) 64 ltac:(lia)).
  pose proof (Z.mod_pos_bound (b2z s3) 64 ltac:(lia)).
  set (r := b2z s0 mod 8 * 262144 + b2z s1 mod 64 * 4096
            + b2z s2 mod 64 * 64 + b2z s3 mod 64) in *.
  unfold rune3Max, MaxRune.
  destruct (Z.ltb_spec 65535 r), (Z.leb_spec r 1114111); simpl; try exact HE.
  split; [apply isScalar_spec; lia|]. right. split; [lia|].
  unfold RuneLen, rune1Max, rune2Max, rune3Max, surrogateMin, surrogateMax, MaxRune.
  zcases; simpl; lia.
Qed.

Lemma rangeStep_result (s : list byte) :
  let '(r, w) := rangeStep s in
  isScalar r = true /\ (1 <= w)%nat.
Proof.
  unfold rangeStep. destruct s as [|c rest]; [split; [reflexivity | lia]|].
  pose proof (b2z_range c). unfold RuneSelf.
  destruct (Z.ltb_spec (b2z c) 128).
  - split; [apply isScalar_spec; lia | lia].
  - pose proof (decoderune_result (c :: rest)) as Hd.
    destruct (decoderune (c :: rest)) as [r w].
    destruct Hd as [Hs [[_ ->] | [_ Hw]]]; split; try assumption; try lia.
    assert (0 < RuneLen r); [|lia].
    apply isScalar_spec in Hs.
    unfold RuneLen, rune1Max, rune2Max, rune3Max, surrogateMin, surrogateMax, MaxRune.
    zcases; simpl; lia.
Qed.

Lemma rangeFrom_cons (c : byte) (rest : list byte) :
  rangeFrom 0 (c :: rest)
  = fst (rangeStep (c :: rest))
    :: rangeFrom (snd (rangeStep (c :: rest)) - 1) rest.
Proof.
  change (rangeFrom 0 (c :: rest))
    with (let '(r, w) := rangeStep (c :: rest) in r :: rangeFrom (w - 1) rest).
  now destruct (rangeStep (c :: rest)).
Qed.

Lemma rangeFrom_skip (k : nat) (c : byte) (rest : list byte) :
  rangeFrom (S k) (c :: rest) = rangeFrom k rest.
Proof. reflexivity. Qed.

(** Every rune the [range] clause yields is a scalar value. *)
Lemma rangeFrom_scalar (s : list byte) :
  forall skip, Forall (fun r => isScalar r = true) (rangeFrom skip s).
Proof.
  induction s as [|c rest IH]; intros skip; [constructor|].
  destruct skip as [|k]; [|rewrite rangeFrom_skip; apply IH].
  rewrite rangeFrom_cons.
  pose proof (rangeStep_result (c :: rest)) as Hs.
  destruct (rangeStep (c :: rest)) as [r w].
  constructor; [apply Hs | apply IH].
Qed.

Lemma rangeRunes_scalar (name : string) :
  Forall (fun r => isScalar r = true) (rangeRunes name).
Proof. apply rangeFrom_scalar. Qed.

(** Decide the integer comparisons of the goal by linear arithmetic. *)
Ltac ztest :=
  repeat match goal with
    | |- context [?a <=? ?b] =>
        first [ rewrite (proj2 (Z.leb_le a b)) by lia
              | rewrite (proj2 (Z.leb_gt a b)) by lia ]
    | |- context [?a <? ?b] =>
        first [ rewrite (proj2 (Z.ltb_lt a b)) by lia
              | rewrite (proj2 (Z.ltb_ge a b)) by lia ]
    end.

Lemma mod_drop (k a n : Z) :
  0 < n -> 0 <= a < n -> (k * n + a) mod n = a.
Proof.
  intros Hn Ha. rewrite Z.add_comm, Z.mod_add by lia. now apply Z.mod_small.
Qed.

(** [decoderune] on a well-formed sequence of two, three and four bytes. *)
Lemma decoderune2 (a b : Z) (rest : list byte) :
  0 <= a < 32 -> 0 <= b < 64 -> 127 < a * 64 + b ->
  decoderune (z2b (192 + a) :: z2b (128 + b) :: rest) = (a * 64 + b, 2%nat).
Proof.
  intros Ha Hb Hr. unfold decoderune, isCont.
  rewrite !b2z_z2b_small by lia. decode_arith.
  replace (192 + a) with (6 * 32 + a) by lia.
  replace (128 + b) with (2 * 64 + b) by lia.
  rewrite !mod_drop by lia.
  unfold t2, t3, locb, hicb, rune1Max. ztest. reflexivity.
Qed.

Lemma decoderune3 (a b c : Z) (rest : list byte) :
  0 <= a < 16 -> 0 <= b < 64 -> 0 <= c < 64 ->
  2047 < a * 4096 + b * 64 + c ->
  ~ (55296 <= a * 4096 + b * 64 + c <= 57343) ->
  decoderune (z2b (224 + a) :: z2b (128 + b) :: z2b (128 + c) :: rest)
  = (a * 4096 + b * 64 + c, 3%nat).
Proof.
  intros Ha Hb Hc Hr Hs. unfold decoderune, isCont.
  rewrite !b2z_z2b_small by lia. decode_arith.
  replace (224 + a) with (14 * 16 + a) by lia.
  replace (128 + b) with (2 * 64 + b) by lia.
  replace (128 + c) with (2 * 64 + c) by lia.
  rewrite !mod_drop by lia.
  unfold t2, t3, t4, locb, hicb, rune2Max, surrogateMin, surrogateMax.
  destruct (Z.leb_spec 55296 (a * 4096 + b * 64 + c)),
           (Z.leb_spec (a * 4096 + b * 64 + c) 57343);
    try lia; ztest; reflexivity.
Qed.

Lemma decoderune4 (a b c d : Z) (rest : list byte) :
  0 <= a < 8 -> 0 <= b < 64 -> 0 <= c < 64 -> 0 <= d < 64 ->
  65535 < a * 262144 + b * 4096 + c * 64 + d <= 1114111 ->
  decoderune (z2b (240 + a) :: z2b (128 + b) :: z2b (128 + c)
              :: z2b (128 + d) :: rest)
  = (a * 262144 + b * 4096 + c * 64 + d, 4%nat).
Proof.
  intros Ha Hb Hc Hd Hr. unfold decoderune, isCont.
  rewrite !b2z_z2b_small by lia. decode_arith.
  replace (240 + a) with (30 * 8 + a) by lia.
  replace (128 + b) with (2 * 64 + b) by lia.
  replace (128 + c) with (2 * 64 + c) by lia.
  replace (128 + d) with (2 * 64 + d) by lia.
  rewrite !mod_drop by lia.
  unfold t2, t3, t4, t5, locb, hicb, rune3Max, MaxRune.
  ztest. reflexivity.
Qed.

(** The [range] clause reads back what RFC 3629 writes. *)
Lemma rangeStep_utf8 (c : Z) (rest : list byte) :
  isScalar c = true ->
  rangeStep (utf8 c ++ rest) = (c, length (utf8 c)).
Proof.
  intros Hc. apply isScalar_spec in Hc. destruct Hc as [Hr Hs].
  unfold utf8.
  destruct (Z.ltb_spec c 128) as [H1 | H1].
  { cbn [app length]. unfold rangeStep, RuneSelf.
    rewrite b2z_z2b_small by lia. ztest. reflexivity. }
  pose proof (Z.div_mod c 64 ltac:(lia)) as E64.
  pose proof (Z.mod_pos_bound c 64 ltac:(lia)) as B64.
  destruct (Z.ltb_spec c 2048) as [H2 | H2].
  { cbn [app length]. unfold rangeStep, RuneSelf.
    assert (0 <= c / 64 < 32) by lia.
    rewrite b2z_z2b_small by lia. ztest.
    rewrite decoderune2 by lia. f_equal. lia. }
  pose proof (Z.div_mod (c / 64) 64 ltac:(lia)) as E64'.
  pose proof (Z.mod_pos_bound (c / 64) 64 ltac:(lia)) as B64'.
  assert (E4096 : c / 4096 = c / 64 / 64)
    by (rewrite Z.div_div by lia; reflexivity).
  destruct (Z.ltb_spec c 65536) as [H3 | H3].
  { cbn [app length]. unfold rangeStep, RuneSelf.
    assert (0 <= c / 4096 < 16) by lia.
    rewrite b2z_z2b_small by lia. ztest.
    rewrite decoderune3 by lia. f_equal. lia. }
  pose proof (Z.div_mod (c / 4096) 64 ltac:(lia)) as E4096'.
  pose proof (Z.mod_pos_bound (c / 4096) 64 ltac:(lia)) as B4096'.
  assert (E262144 : c / 262144 = c / 4096 / 64)
    by (rewrite Z.div_div by lia; reflexivity).
  cbn [app length]. unfold rangeStep, RuneSelf.
  assert (0 <= c / 262144 < 8) by lia.
  rewrite b2z_z2b_small by lia. ztest.
  rewrite decoderune4 by lia. f_equal. lia.
Qed.

Lemma rangeFrom_skip_app (a rest : list byte) :
  rangeFrom (length a) (a ++ rest) = rangeFrom 0 rest.
Proof. induction a as [|c a IH]; [reflexivity | exact IH]. Qed.

Lemma utf8_nonempty (c : Z) : exists b tl, utf8 c = b :: tl.
Proof. unfold utf8. zcases; eauto. Qed.

Lemma rangeFrom_utf8 (c : Z) (rest : list byte) :
  isScalar c = true ->
  rangeFrom 0 (utf8 c ++ rest) = c :: rangeFrom 0 rest.
Proof.
  intros Hc. pose proof (rangeStep_utf8 c rest Hc) as Hs.
  destruct (utf8_nonempty c) as (b & tl & E). rewrite E in *.
  cbn [app] in *. rewrite rangeFrom_cons, Hs. cbn [fst snd length].
  replace (S (length tl) - 1)%nat with (length tl) by lia.
  now rewrite rangeFrom_skip_app.
Qed.

(** Decoding the UTF-8 of a list of scalar values gives the list back. *)
Lemma rangeRunes_utf8String (cs : list Z) :
  Forall (fun c => isScalar c = true) cs ->
  rangeRunes (utf8String cs) = cs.
Proof.
  unfold rangeRunes, utf8String. rewrite bytes_of_string_of_bytes.
  induction 1 as [|c cs Hc _ IH]; [reflexivity|].
  cbn [flat_map]. now rewrite rangeFrom_utf8, IH.
Qed.

(** ** [utf8.EncodeRune] into a buffer of the right size *)

Lemma storeAt_exact (bs : list byte) :
  forall pre p, length p = length bs ->
  storeAt (pre ++ p) (length pre) bs = Some (pre ++ bs).
Proof.
  induction bs as [|b bs IH]; intros pre p Hlen.
  - destruct p; [reflexivity | discriminate].
  - destruct p as [|x p]; [discriminate|]. cbn [storeAt].
    rewrite decide_True by (rewrite length_app; simpl; lia).
    rewrite insert_app_r_alt by lia. rewrite Nat.sub_diag. cbn [insert list_insert].
    replace (pre ++ b :: p) with ((pre ++ [b]) ++ p) by now rewrite <- app_assoc.
    replace (S (length pre)) with (length (pre ++ [b]))
      by (rewrite length_app; simpl; lia).
    rewrite IH by (simpl in Hlen; lia). now rewrite <- app_assoc.
Qed.

Lemma EncodeRune_exact (r : rune) :
  isScalar r = true ->
  EncodeRune (replicate (Z.to_nat (RuneLen r)) zero) r
  = Some (utf8 r, RuneLen r).
Proof.
  intros Hr. unfold EncodeRune.
  rewrite encodeBytes_utf8 by exact Hr.
  rewrite (utf8_length r Hr), Nat2Z.id.
  pose proof (storeAt_exact (utf8 r) [] (replicate (length (utf8 r)) zero)
                (length_replicate _ _)) as Hst.
  cbn [app length] in Hst. rewrite Hst. reflexivity.
Qed.

Lemma string_of_rune_ascii (r : rune) :
  0 <= r < 128 -> string_of_rune r = String (z2b r) EmptyString.
Proof.
  intros Hr. unfold string_of_rune, EncodeRune.
  rewrite encodeBytes_utf8 by (apply isScalar_spec; lia).
  unfold utf8. ztest. reflexivity.
Qed.

(** ** Escapes *)

Lemma escape_byte (r : byte) :
  "%" +:+ Strings.ToUpper (Hex.EncodeToString [r]) = percentTriplet r.
Proof.
  destruct r as [[] [] [] [] [] [] [] []]; vm_compute; reflexivity.
Qed.

Lemma appendEscapes_spec (u : list byte) :
  forall encodedName,
  appendEscapes encodedName u
  = encodedName +:+ concatStrings (map percentTriplet u).
Proof.
  unfold appendEscapes.
  induction u as [|r u IH]; intros acc; cbn [fold_left map concatStrings].
  - now rewrite append_nil_r.
  - rewrite IH. cbv zeta. rewrite <- escape_byte. now rewrite !append_assoc.
Qed.

(** ** The character tests of [getURLEncodedName] *)

(** Replace the code of each character literal by its value. *)
Ltac rc_eval :=
  repeat match goal with
    | |- context [rc ?c] =>
        let v := eval vm_compute in (rc c) in change (rc c) with v
    end.

(** Booleans made of comparisons, as propositions for [lia]. *)
Ltac bool_prop :=
  rewrite ?orb_true_iff, ?andb_true_iff, ?Z.leb_le, ?Z.ltb_lt, ?Z.eqb_eq.

Lemma bool_eq_iff (a b : bool) : (a = true <-> b = true) -> a = b.
Proof. destruct a, b; intuition congruence. Qed.

Lemma unreservedRune_tests (s : rune) :
  unreservedRune s = isAlnum s || isMark s.
Proof.
  unfold unreservedRune, unreservedByte, isAlnum, isMark. rc_eval.
  destruct (Z.leb_spec 0 s) as [H0 | H0];
    [destruct (Z.ltb_spec s 128) as [H1 | H1]|]; cbn [andb].
  - rewrite b2z_z2b_small by lia. apply bool_eq_iff. bool_prop. lia.
  - symmetry. apply not_true_iff_false. bool_prop. lia.
  - symmetry. apply not_true_iff_false. bool_prop. lia.
Qed.

Lemma inClass_reserved (r : rune) :
  inClass reservedClass r = isAlnum r || isMark r.
Proof.
  unfold inClass, reservedClass, isAlnum, isMark. cbn [existsb]. rc_eval.
  apply bool_eq_iff. bool_prop. lia.
Qed.

Lemma unreservedByte_rune (c : byte) :
  unreservedByte c = unreservedRune (b2z c).
Proof.
  unfold unreservedRune. rewrite z2b_b2z.
  pose proof (b2z_range c).
  destruct (unreservedByte c) eqn:E; [|now rewrite andb_false_r].
  rewrite andb_true_r. symmetry. apply andb_true_iff.
  revert E. unfold unreservedByte. bool_prop. lia.
Qed.

(** ** [reservedNames.MatchString] *)

Lemma rangeStep_ascii (c : byte) (rest : list byte) :
  b2z c < 128 -> rangeStep (c :: rest) = (b2z c, 1%nat).
Proof. intros H. unfold rangeStep, RuneSelf. ztest. reflexivity. Qed.

Lemma rangeStep_high (c : byte) (rest : list byte) :
  128 <= b2z c -> 128 <= fst (rangeStep (c :: rest)).
Proof.
  intros H. unfold rangeStep, RuneSelf. ztest.
  pose proof (decoderune_result (c :: rest)) as Hd.
  destruct (decoderune (c :: rest)) as [r w]. cbn [fst].
  destruct Hd as [_ [[-> _] | [Hr _]]]; [unfold RuneError|]; lia.
Qed.

(** On any bytes, the runes are all in the class exactly when the bytes are
    all unreserved. *)
Lemma inClass_rangeFrom (s : list byte) :
  forallb (inClass reservedClass) (rangeFrom 0 s) = forallb unreservedByte s.
Proof.
  induction s as [|c rest IH]; [reflexivity|].
  rewrite rangeFrom_cons. cbn [forallb].
  rewrite inClass_reserved, <- unreservedRune_tests.
  destruct (Z.lt_ge_cases (b2z c) 128) as [H | H].
  - rewrite rangeStep_ascii by exact H. cbn [fst snd Nat.sub].
    now rewrite IH, unreservedByte_rune.
  - pose proof (rangeStep_high c rest H) as Hr.
    rewrite unreservedByte_rune.
    replace (unreservedRune (fst (rangeStep (c :: rest)))) with false
      by (unfold unreservedRune; ztest; reflexivity).
    replace (unreservedRune (b2z c)) with false
      by (unfold unreservedRune; ztest; now rewrite andb_false_r).
    reflexivity.
Qed.

Lemma MatchString_spec (name : string) :
  reservedNames_MatchString name
  = match name with
    | EmptyString => false
    | _ => allUnreserved name
    end.
Proof.
  unfold reservedNames_MatchString, allUnreserved, rangeRunes.
  destruct name as [|c rest]; [reflexivity|].
  rewrite <- inClass_rangeFrom.
  cbn [bytes_of_string list_ascii_of_string]. rewrite rangeFrom_cons.
  reflexivity.
Qed.

(** ** The loop of [getURLEncodedName] *)

Lemma RuneLen_scalar (r : rune) : isScalar r = true -> 1 <= RuneLen r.
Proof.
  intros H. rewrite (utf8_length r H).
  destruct (utf8_nonempty r) as (b & tl & ->). simpl. lia.
Qed.

Lemma encodeLoop_spec (name : string) (runes : list rune) :
  Forall (fun r => isScalar r = true) runes ->
  forall encodedName,
  encodeLoop name runes encodedName
  = Some (encodedName +:+ concatStrings (map encodeCodePoint runes)).
Proof.
  induction 1 as [|s runes Hs _ IH]; intros acc; cbn [encodeLoop map concatStrings].
  - now rewrite append_nil_r.
  - unfold encodeCodePoint at 1. rewrite unreservedRune_tests.
    assert (Hascii : isAlnum s || isMark s = true ->
                     string_of_rune s = String (z2b s) EmptyString).
    { intros Hu. rewrite <- unreservedRune_tests in Hu.
      apply string_of_rune_ascii. revert Hu.
      unfold unreservedRune. bool_prop. lia. }
    destruct (isAlnum s) eqn:Ea; cbn [orb].
    + rewrite IH, Hascii, append_assoc by (rewrite ?Ea; reflexivity). reflexivity.
    + destruct (isMark s) eqn:Em.
      * rewrite IH, Hascii, append_assoc by (rewrite ?Ea, ?Em; reflexivity).
        reflexivity.
      * pose proof (RuneLen_scalar s Hs) as Hl.
        rewrite (proj2 (Z.ltb_ge (RuneLen s) 0)) by lia.
        rewrite EncodeRune_exact by exact Hs.
        now rewrite IH, appendEscapes_spec, append_assoc.
Qed.

(** The result of [getURLEncodedName] on any string, fast path or not. *)
Lemma getURLEncodedName_spec (name : string) :
  getURLEncodedName name
  = Some (concatStrings (map encodeCodePoint (rangeRunes name))).
Proof.
  unfold getURLEncodedName.
  destruct (reservedNames_MatchString name) eqn:Em.
  - rewrite MatchString_spec in Em.
    destruct name as [|c rest]; [discriminate|].
    f_equal. unfold allUnreserved in Em. unfold rangeRunes.
    rewrite <- (string_of_bytes_of_string (String c rest)) at 1.
    revert Em. generalize (bytes_of_string (String c rest)) as s.
    induction s as [|b s IH]; intros Hall; [reflexivity|].
    cbn [forallb] in Hall. apply andb_true_iff in Hall as [Hb Hs].
    assert (b2z b < 128)
      by (revert Hb; unfold unreservedByte; bool_prop; lia).
    rewrite rangeFrom_cons, rangeStep_ascii by assumption.
    cbn [fst snd Nat.sub map concatStrings string_of_bytes string_of_list_ascii].
    unfold encodeCodePoint at 1.
    rewrite <- unreservedByte_rune, Hb, z2b_b2z, append_cons, append_nil_l.
    f_equal. apply IH, Hs.
  - rewrite encodeLoop_spec by apply rangeRunes_scalar. reflexivity.
Qed.

(** ** [sumHMAC]: the length of the digest *)

Lemma length_bigEndian (n : nat) (z : Z) : length (Sha256.bigEndian n z) = n.
Proof. induction n as [|n IH]; simpl; [reflexivity | now rewrite IH]. Qed.

Lemma length_checkSum (msg : list byte) :
  length (Sha256.checkSum msg) = Sha256.Size.
Proof.
  unfold Sha256.checkSum.
  destruct (Sha256.blocks _ _ _) as [[[[[[[h0 h1] h2] h3] h4] h5] h6] h7].
  rewrite !length_app, !length_bigEndian. reflexivity.
Qed.

(** [sumHMAC] is the HMAC of RFC 2104 over SHA-256: with [k] the key (hashed
    first when longer than a block) padded with zeros to 64 bytes, it is
    [H (k xor opad ++ H (k xor ipad ++ data))]. *)
Lemma sumHMAC_unfold (key data : list byte) :
  let k0 := if (64 <? length key)%nat then Sha256.checkSum key else key in
  let k := Hmac.copy (replicate 64 zero) k0 in
  sumHMAC key data
  = Sha256.checkSum
      (Hmac.xorBytes 0x5c k
       ++ Sha256.checkSum (Hmac.xorBytes 0x36 k ++ data)).
Proof.
  unfold sumHMAC, Hmac.New, Sha256.BlockSize.
  destruct (64 <? length key)%nat; reflexivity.
Qed.

(** ** [getCanonicalHeaders]: the two loops *)

Lemma appendValues_next (values : list string) :
  forall idx canonicalHeaders,
  appendValues (S idx) values canonicalHeaders
  = canonicalHeaders +:+ concatStrings (map (fun v => "," +:+ v) values).
Proof.
  induction values as [|v values IH]; intros idx acc; cbn [appendValues map concatStrings].
  - now rewrite append_nil_r.
  - rewrite IH. cbn. now rewrite !append_assoc.
Qed.

Lemma joinComma_cons (v : string) (values : list string) :
  joinComma (v :: values)
  = v +:+ concatStrings (map (fun v => "," +:+ v) values).
Proof.
  revert v. induction values as [|w values IH]; intros v.
  - cbn. now rewrite append_nil_r.
  - change (joinComma (v :: w :: values))
      with (v +:+ "," +:+ joinComma (w :: values)).
    rewrite IH. cbn [map concatStrings]. now rewrite append_assoc.
Qed.

Lemma appendValues_spec (values : list string) (canonicalHeaders : string) :
  appendValues 0 values canonicalHeaders
  = canonicalHeaders +:+ joinComma values.
Proof.
  destruct values as [|v values]; cbn [appendValues].
  - cbn. now rewrite append_nil_r.
  - rewrite appendValues_next, joinComma_cons. cbn. now rewrite append_assoc.
Qed.

Lemma headersLoop_spec (req : Request) (signedHeaders : list string) :
  forall canonicalHeaders,
  headersLoop signedHeaders req canonicalHeaders
  = match canonicalLines req signedHeaders with
    | Some lines => (canonicalHeaders +:+ lines, None)
    | None => (EmptyString, Some ErrMissingRequiredSignedHeader)
    end.
Proof.
  induction signedHeaders as [|header rest IH]; intros acc;
    cbn [headersLoop canonicalLines].
  - now rewrite append_nil_r.
  - unfold signedValues.
    destruct (String.eqb_spec header "expect") as [He | He];
      destruct (String.eqb_spec header "host") as [Hh | Hh];
      repeat case_decide; try congruence;
      destruct (Header req !! CanonicalHeaderKey header) as [vs0|];
      cbn [negb]; rewrite ?IH, ?appendValues_spec;
      try destruct (canonicalLines req rest); unfold headerLine;
      rewrite ?append_assoc; reflexivity.
Qed.

Lemma getCanonicalHeaders_spec (signedHeaders : list string) (req : Request) :
  getCanonicalHeaders signedHeaders req
  = match canonicalLines req signedHeaders with
    | Some lines => (lines, None)
    | None => (EmptyString, Some ErrMissingRequiredSignedHeader)
    end.
Proof. unfold getCanonicalHeaders. now rewrite headersLoop_spec. Qed.

Lemma canonicalLines_app (req : Request) (a b : list string) :
  canonicalLines req (a ++ b)
  = match canonicalLines req a, canonicalLines req b with
    | Some la, Some lb => Some (la +:+ lb)
    | _, _ => None
    end.
Proof.
  induction a as [|h a IH]; cbn [app canonicalLines].
  - now destruct (canonicalLines req b).
  - rewrite IH. destruct (signedValues req h); [|reflexivity].
    destruct (canonicalLines req a), (canonicalLines req b);
      rewrite ?append_assoc; reflexivity.
Qed.

(** The block is built line by line from the values of each header. *)
Lemma canonicalLines_Some (req : Request) (signedHeaders : list string)
    (lines : string) :
  canonicalLines req signedHeaders = Some lines <->
  exists valuess,
    Forall2 (fun header values => signedValues req header = Some values)
            signedHeaders valuess
    /\ lines = concatStrings (zip_with headerLine signedHeaders valuess).
Proof.
  revert lines. induction signedHeaders as [|h rest IH]; intros lines;
    cbn [canonicalLines].
  - split.
    + intros [= <-]. exists []. split; [constructor | reflexivity].
    + intros (vss & HF & ->). inversion HF; subst. reflexivity.
  - split.
    + destruct (signedValues req h) as [vs|] eqn:Ev; [|discriminate].
      destruct (canonicalLines req rest) as [ls|]; [|discriminate].
      intros [= <-]. destruct (proj1 (IH ls) eq_refl) as (vss & HF & ->).
      exists (vs :: vss). split; [constructor; assumption | reflexivity].
    + intros (vss & HF & ->). inversion HF as [|? vs ? vss' Hv HF']; subst.
      rewrite Hv. rewrite (proj2 (IH _) (ex_intro _ vss' (conj HF' eq_refl))).
      reflexivity.
Qed.

Lemma canonicalLines_None (req : Request) (signedHeaders : list string) :
  canonicalLines req signedHeaders = None <->
  exists header, header ∈ signedHeaders /\ signedValues req header = None.
Proof.
  induction signedHeaders as [|h rest IH]; cbn [canonicalLines].
  - split; [discriminate | intros (x & Hx & _); inversion Hx].
  - split.
    + destruct (signedValues req h) as [vs|] eqn:Ev.
      * destruct (canonicalLines req rest); [discriminate|].
        intros _. destruct (proj1 IH eq_refl) as (x & Hx & Hn).
        exists x. split; [now right | exact Hn].
      * intros _. exists h. split; [left | exact Ev].
    + intros (x & Hx & Hn). destruct (signedValues req h) as [vs|] eqn:Ev;
        [|reflexivity].
      apply elem_of_cons in Hx as [-> | Hx]; [congruence|].
      rewrite (proj2 IH (ex_intro _ x (conj Hx Hn))). reflexivity.
Qed.

Lemma signedValues_None (req : Request) (header : string) :
  signedValues req header = None <->
  header <> "expect"%string /\ header <> "host"%string
  /\ Header req !! CanonicalHeaderKey header = None.
Proof.
  unfold signedValues.
  destruct (decide (header = "expect"%string)) as [He | He];
    [split; [discriminate | tauto]|].
  destruct (decide (header = "host"%string)) as [Hh | Hh];
    [split; [discriminate | tauto]|].
  tauto.
Qed.

(** ** The output is ASCII *)

Lemma asciiOnly_app (s t : string) :
  asciiOnly (s +:+ t) = asciiOnly s && asciiOnly t.
Proof.
  unfold asciiOnly. induction s as [|c s IH]; [reflexivity|].
  rewrite append_cons. cbn [bytes_of_string list_ascii_of_string forallb].
  unfold bytes_of_string in IH. now rewrite IH, andb_assoc.
Qed.

Lemma asciiOnly_concat (l : list string) :
  asciiOnly (concatStrings l) = forallb asciiOnly l.
Proof.
  induction l as [|s l IH]; [reflexivity|].
  cbn [concatStrings forallb]. now rewrite asciiOnly_app, IH.
Qed.

Lemma asciiOnly_percentTriplet (b : byte) : asciiOnly (percentTriplet b) = true.
Proof.
  destruct b as [[] [] [] [] [] [] [] []]; vm_compute; reflexivity.
Qed.

Lemma asciiOnly_encodeCodePoint (c : Z) : asciiOnly (encodeCodePoint c) = true.
Proof.
  unfold encodeCodePoint. destruct (unreservedRune c) eqn:Eu.
  - assert (0 <= c < 128)
      by (revert Eu; unfold unreservedRune; bool_prop; lia).
    unfold asciiOnly. cbn [bytes_of_string list_ascii_of_string forallb].
    rewrite b2z_z2b_small by lia. ztest. reflexivity.
  - rewrite asciiOnly_concat, forallb_forall. intros s Hs.
    apply in_map_iff in Hs as (b & <- & _). apply asciiOnly_percentTriplet.
Qed.

(** The output of [getURLEncodedName] holds ASCII bytes only. *)
Lemma getURLEncodedName_ascii (name out : string) :
  getURLEncodedName name = Some out -> asciiOnly out = true.
Proof.
  rewrite getURLEncodedName_spec. intros [= <-].
  rewrite asciiOnly_concat, forallb_forall. intros s Hs.
  apply in_map_iff in Hs as (c & <- & _). apply asciiOnly_encodeCodePoint.
Qed.

(** ** [http.CanonicalHeaderKey] does not see the case of letters *)

Lemma scanKey_valid (a : list byte) (noCanon : bool) :
  forallb validHeaderFieldByte a = true -> scanKey noCanon a = Some noCanon.
Proof.
  induction a as [|c a IH]; [reflexivity|]. cbn [forallb scanKey].
  intros H. apply andb_true_iff in H as [-> Ha]. now apply IH.
Qed.

Lemma quickCheck_result (s : list byte) (canon : option string) :
  forallb validHeaderFieldByte s = true ->
  forall upper,
    (quickCheck upper s canon = None /\ canonicalize upper s = s)
    \/ quickCheck upper s canon = canon.
Proof.
  induction s as [|c s IH]; cbn [forallb quickCheck canonicalize];
    intros Hv upper; [left; split; reflexivity|].
  apply andb_true_iff in Hv as [Hc Hs]. rewrite Hc. cbn [negb].
  destruct (upper && isLower c); [right; reflexivity|].
  destruct (negb upper && isUpper c); [right; reflexivity|].
  destruct (IH Hs (b2z c =? rc "-")) as [[Hq Hk] | Hq]; [left | right; exact Hq].
  split; [exact Hq | now rewrite Hk].
Qed.

(** On a name made of valid field bytes, the canonical key is the name with
    the first letter and each letter after a dash in upper case, and the
    other letters in lower case. *)
Lemma CanonicalHeaderKey_valid (s : string) :
  validName s = true ->
  CanonicalHeaderKey s = string_of_bytes (canonicalize true (bytes_of_string s)).
Proof.
  intros Hv. unfold CanonicalHeaderKey, canonicalMIMEHeaderKey.
  rewrite (scanKey_valid _ false Hv).
  destruct (quickCheck_result (bytes_of_string s)
              (Some (string_of_bytes (canonicalize true (bytes_of_string s))))
              Hv true) as [[-> Hk] | ->]; [|reflexivity].
  now rewrite Hk, string_of_bytes_of_string.
Qed.

Lemma canonicalize_fold_byte (upper : bool) (c d : byte) :
  lowerByte c = lowerByte d ->
  (if upper && isLower c then z2b (b2z c - toLower)
   else if negb upper && isUpper c then z2b (b2z c + toLower) else c)
  = (if upper && isLower d then z2b (b2z d - toLower)
     else if negb upper && isUpper d then z2b (b2z d + toLower) else d).
Proof.
  intros H. apply (f_equal b2z) in H. revert H.
  pose proof (b2z_range c) as Hc. pose proof (b2z_range d) as Hd.
  unfold lowerByte, isLower, isUpper, toLower. rc_eval.
  intros H. apply b2z_inj. revert H.
  destruct upper; cbn [andb negb];
    destruct (Z.leb_spec 65 (b2z c)), (Z.leb_spec (b2z c) 90),
             (Z.leb_spec 97 (b2z c)), (Z.leb_spec (b2z c) 122),
             (Z.leb_spec 65 (b2z d)), (Z.leb_spec (b2z d) 90),
             (Z.leb_spec 97 (b2z d)), (Z.leb_spec (b2z d) 122);
    cbn [andb]; try lia;
    rewrite ?b2z_z2b_small by lia; lia.
Qed.

Lemma canonicalize_fold (a : list byte) :
  forall b upper,
  map lowerByte a = map lowerByte b ->
  canonicalize upper a = canonicalize upper b.
Proof.
  induction a as [|c a IH]; intros [|d b] upper H; try discriminate;
    [reflexivity|].
  cbn [map] in H. injection H as Hcd Hab. cbn [canonicalize].
  rewrite (canonicalize_fold_byte upper c d Hcd).
  f_equal. now apply IH.
Qed.

(** Two spellings of a valid header name that differ in the case of letters
    only have the same canonical key. *)
Lemma CanonicalHeaderKey_fold (s t : string) :
  validName s = true -> validName t = true -> sameFold s t ->
  CanonicalHeaderKey s = CanonicalHeaderKey t.
Proof.
  intros Hs Ht Hf. rewrite !CanonicalHeaderKey_valid by assumption.
  f_equal. now apply canonicalize_fold.
Qed.

(** A string of ASCII bytes is valid UTF-8, one code point per byte. *)
Lemma asciiOnly_valid (s : string) : asciiOnly s = true -> validUTF8 s.
Proof.
  intros Ha. exists (map b2z (bytes_of_string s)).
  rewrite <- (string_of_bytes_of_string s) at 2.
  unfold asciiOnly, utf8String in *. revert Ha.
  generalize (bytes_of_string s) as l.
  induction l as [|b l IH]; intros Ha; [split; [constructor | reflexivity]|].
  cbn [forallb] in Ha. apply andb_true_iff in Ha as [Hb Hl].
  apply Z.ltb_lt in Hb. pose proof (b2z_range b).
  destruct (IH Hl) as [HF E]. split.
  - constructor; [apply isScalar_spec; lia | exact HF].
  - cbn [map flat_map]. unfold utf8 at 1. ztest. rewrite z2b_b2z.
    cbn [app string_of_bytes string_of_list_ascii]. f_equal. exact E.
Qed.

(** A string that is not valid UTF-8 is never the output of
    [getURLEncodedName]. *)
Lemma getURLEncodedName_invalid (name out : string) :
  ~ validUTF8 out -> getURLEncodedName name <> Some out.
Proof.
  intros Hn H. apply Hn, asciiOnly_valid.
  now apply getURLEncodedName_ascii in H.
Qed.

(** The single byte [0xFF] is not valid UTF-8. *)
Lemma invalid_byte_ff : ~ validUTF8 (String "255" "").
Proof.
  intros (cs & Hcs & E).
  pose proof (rangeRunes_utf8String cs Hcs) as Hr. rewrite <- E in Hr.
  change (rangeRunes (String "255" "")) with [RuneError] in Hr. subst cs.
  vm_compute in E. discriminate E.
Qed.

(** ** The model against known answers *)

Example sha256_abc :
  Hex.EncodeToString (Sha256.checkSum (bytes_of_string "abc"))
  = "ba7816bf8f01cfea414140de5dae2223b00361a396177a9cb410ff61f20015ad"%string.
Proof. vm_compute. reflexivity. Qed.

(** RFC 4231, test cases 2 and 6 (a key longer than a block). *)
Example hmac_rfc4231_case2 :
  Hex.EncodeToString
    (sumHMAC (bytes_of_string "Jefe")
             (bytes_of_string "what do ya want for nothing?"))
  = "5bdcc146bf60754e6a042426089575c75a003f089d2739839dec58b964ec3843"%string.
Proof. vm_compute. reflexivity. Qed.

Example hmac_rfc4231_case6 :
  Hex.EncodeToString
    (sumHMAC (replicate 131 (z2b 0xaa))
       (bytes_of_string "Test Using Larger Than Block-Size Key - Hash Key First"))
  = "60e431591ee0b67f0d8a26aacbf5b77f8e0bc6213728c5140546040f0ee37f54"%string.
Proof. vm_compute. reflexivity. Qed.

Example canonical_key_examples :
  map CanonicalHeaderKey
    ["x-amz-date"; "content-type"; "CONTENT-TYPE"; "Host"; "x amz"]%string
  = ["X-Amz-Date"; "Content-Type"; "Content-Type"; "Host"; "x amz"]%string.
Proof. vm_compute. reflexivity. Qed.

(** ** The claims *)

Local Open Scope string_scope.

(** C1: on an input that is not made of unreserved characters only,
    [getURLEncodedName] works code point by code point, in the order of the
    [range] clause: an ASCII letter, a digit and [- _ . ~ /] are copied, any
    other code point becomes one [%XX] triplet, in uppercase hexadecimal,
    per byte of its UTF-8 encoding, in the order of these bytes.  On the
    UTF-8 of a list of scalar values the code points are those values.  The
    character U+00E9 gives [%C3%A9] and the space gives [%20]. *)
Theorem C1_encode_per_code_point :
  (forall name,
      allUnreserved name = false ->
      getURLEncodedName name
      = Some (concatStrings (map encodeCodePoint (rangeRunes name))))
  /\ (forall cs,
      Forall (fun c => isScalar c = true) cs ->
      allUnreserved (utf8String cs) = false ->
      getURLEncodedName (utf8String cs)
      = Some (concatStrings (map encodeCodePoint cs)))
  /\ (forall c,
      unreservedRune c = false ->
      encodeCodePoint c = concatStrings (map percentTriplet (utf8 c)))
  /\ utf8String [0xE9%Z] = String "195" (String "169" "")
  /\ getURLEncodedName (utf8String [0xE9%Z]) = Some "%C3%A9"
  /\ getURLEncodedName " " = Some "%20".
Proof.
  split; [|split; [|split; [|split; [|split]]]].
  - intros name _. apply getURLEncodedName_spec.
  - intros cs Hcs _. rewrite getURLEncodedName_spec.
    now rewrite rangeRunes_utf8String.
  - intros c Hc. unfold encodeCodePoint. now rewrite Hc.
  - reflexivity.
  - vm_compute. reflexivity.
  - vm_compute. reflexivity.
Qed.

Lemma C1_encode_per_code_point_witness :
  allUnreserved "a b" = false
  /\ getURLEncodedName "a b" = Some "a%20b"
  /\ Forall (fun c => isScalar c = true) [0x4E2D%Z; 0x2F%Z; 0x1F600%Z]
  /\ allUnreserved (utf8String [0x4E2D%Z; 0x2F%Z; 0x1F600%Z]) = false
  /\ getURLEncodedName (utf8String [0x4E2D%Z; 0x2F%Z; 0x1F600%Z])
     = Some "%E4%B8%AD/%F0%9F%98%80"
  /\ unreservedRune 0x20 = false
  /\ encodeCodePoint 0x20 = "%20".
Proof.
  assert (Hs : Forall (fun c => isScalar c = true) [0x4E2D%Z; 0x2F%Z; 0x1F600%Z])
    by (repeat constructor).
  split; [reflexivity|].
  split; [exact (proj1 C1_encode_per_code_point "a b" eq_refl)|].
  split; [exact Hs|].
  split; [reflexivity|].
  split; [exact (proj1 (proj2 C1_encode_per_code_point) _ Hs eq_refl)|].
  split; [reflexivity|].
  exact (proj1 (proj2 (proj2 C1_encode_per_code_point)) 0x20%Z eq_refl).
Defined.

(** C2: a non-empty string made of ASCII letters, digits and [- _ . ~ /]
    only (one that matches [^[A-Za-z0-9\-_.~/]+$]) is matched by
    [reservedNames] and returned unchanged, slashes included; the empty
    string gives the empty string. *)
Theorem C2_fast_path_identity :
  (forall s,
      s <> "" -> allUnreserved s = true ->
      reservedNames_MatchString s = true /\ getURLEncodedName s = Some s)
  /\ getURLEncodedName "" = Some "".
Proof.
  split; [|reflexivity].
  intros s Hne Hall.
  assert (Hm : reservedNames_MatchString s = true).
  { rewrite MatchString_spec. destruct s; [congruence | exact Hall]. }
  split; [exact Hm|]. unfold getURLEncodedName. now rewrite Hm.
Qed.

Lemma C2_fast_path_identity_witness :
  "a/b_c-d.e~f" <> "" /\ allUnreserved "a/b_c-d.e~f" = true
  /\ reservedNames_MatchString "a/b_c-d.e~f" = true
  /\ getURLEncodedName "a/b_c-d.e~f" = Some "a/b_c-d.e~f".
Proof.
  assert (Hne : "a/b_c-d.e~f" <> "") by discriminate.
  split; [exact Hne|]. split; [reflexivity|].
  exact (proj1 C2_fast_path_identity "a/b_c-d.e~f" Hne eq_refl).
Defined.

(** C3, as the code behaves: a byte that is not valid UTF-8 reaches the loop
    as [RuneError] (U+FFFD), for which [utf8.RuneLen] is 3, so the guard
    [len < 0] never fires: the single byte [0xFF] is encoded as [%EF%BF%BD]
    and is not returned unchanged.  No rune of any input has a negative
    [RuneLen]; no input that is not valid UTF-8 is returned unchanged; and
    the function returns a string on every input. *)
Theorem C3_malformed_byte_is_replaced :
  getURLEncodedName (String "255" "") = Some "%EF%BF%BD"
  /\ getURLEncodedName (String "255" "") <> Some (String "255" "")
  /\ rangeRunes (String "255" "") = [RuneError]
  /\ (forall name, Forall (fun r => (0 <= RuneLen r)%Z) (rangeRunes name))
  /\ (forall name, ~ validUTF8 name -> getURLEncodedName name <> Some name)
  /\ (forall name, exists out, getURLEncodedName name = Some out).
Proof.
  split; [vm_compute; reflexivity|].
  split; [vm_compute; discriminate|].
  split; [vm_compute; reflexivity|].
  split; [|split].
  - intros name. eapply Forall_impl; [apply rangeRunes_scalar|].
    intros r Hr. cbn beta in Hr. pose proof (RuneLen_scalar r Hr). lia.
  - intros name Hn. now apply getURLEncodedName_invalid.
  - intros name. eexists. apply getURLEncodedName_spec.
Qed.

Lemma C3_malformed_byte_is_replaced_witness :
  ~ validUTF8 (String "255" "")
  /\ getURLEncodedName (String "255" "") <> Some (String "255" "").
Proof.
  split; [exact invalid_byte_ff|].
  exact (proj1 (proj2 (proj2 (proj2 (proj2 C3_malformed_byte_is_replaced))))
           (String "255" "") invalid_byte_ff).
Defined.

(** Evaluate the canonical form of a literal header name. *)
Ltac canon_eval :=
  repeat match goal with
    | |- context [CanonicalHeaderKey ?h] =>
        let v := eval vm_compute in (CanonicalHeaderKey h) in
        change (CanonicalHeaderKey h) with v
    end.

(** C4: when [getCanonicalHeaders] succeeds, its output is one line per
    signed header, in the order of the signed-header list: the name as it
    is in the list, a colon, the values of the header joined with commas in
    their stored order, a line feed.  It depends on the header map through
    lookups only.  Signed headers [host; x-amz-date] give
    [host:example.com\nx-amz-date:20150101T000000Z\n], and a header with the
    values [a; b] gives [x-multi:a,b\n]. *)
Theorem C4_canonical_header_lines :
  (forall signedHeaders req out,
      getCanonicalHeaders signedHeaders req = (out, None) ->
      exists valuess,
        Forall2 (fun header values => signedValues req header = Some values)
                signedHeaders valuess
        /\ out = concatStrings (zip_with headerLine signedHeaders valuess))
  /\ (forall header values,
      headerLine header values = header +:+ ":" +:+ joinComma values +:+ LF)
  /\ (forall hdrs : gmap string (list string),
      hdrs !! "X-Amz-Date" = Some ["20150101T000000Z"] ->
      getCanonicalHeaders ["host"; "x-amz-date"]
        {| Header := hdrs; Host := "example.com" |}
      = ("host:example.com" +:+ LF +:+ "x-amz-date:20150101T000000Z" +:+ LF,
         None))
  /\ (forall (hdrs : gmap string (list string)) host,
      hdrs !! "X-Multi" = Some ["a"; "b"] ->
      getCanonicalHeaders ["x-multi"] {| Header := hdrs; Host := host |}
      = ("x-multi:a,b" +:+ LF, None)).
Proof.
  split; [|split; [|split]].
  - intros sh req out H. rewrite getCanonicalHeaders_spec in H.
    destruct (canonicalLines req sh) as [lines|] eqn:El; [|discriminate].
    injection H as <-. now apply canonicalLines_Some.
  - reflexivity.
  - intros hdrs H. rewrite getCanonicalHeaders_spec.
    cbn [canonicalLines]. unfold signedValues. cbn [Header Host].
    rewrite !decide_False by discriminate. rewrite decide_True by reflexivity.
    canon_eval. rewrite H. reflexivity.
  - intros hdrs host H. rewrite getCanonicalHeaders_spec.
    cbn [canonicalLines]. unfold signedValues. cbn [Header Host].
    rewrite !decide_False by discriminate.
    canon_eval. rewrite H. reflexivity.
Qed.

Lemma C4_canonical_header_lines_witness :
  let req := {| Header := <["X-Multi" := ["a"; "b"]]>
                            (<["X-Amz-Date" := ["20150101T000000Z"]]> ∅);
                Host := "example.com" |} in
  getCanonicalHeaders ["x-amz-date"; "host"; "x-multi"] req
  = ("x-amz-date:20150101T000000Z" +:+ LF +:+ "host:example.com" +:+ LF
     +:+ "x-multi:a,b" +:+ LF, None)
  /\ exists valuess,
      Forall2 (fun header values => signedValues req header = Some values)
              ["x-amz-date"; "host"; "x-multi"] valuess
      /\ "x-amz-date:20150101T000000Z" +:+ LF +:+ "host:example.com" +:+ LF
         +:+ "x-multi:a,b" +:+ LF
         = concatStrings
             (zip_with headerLine ["x-amz-date"; "host"; "x-multi"] valuess).
Proof.
  intros req.
  assert (H : getCanonicalHeaders ["x-amz-date"; "host"; "x-multi"] req
              = ("x-amz-date:20150101T000000Z" +:+ LF +:+ "host:example.com"
                 +:+ LF +:+ "x-multi:a,b" +:+ LF, None))
    by (vm_compute; reflexivity).
  split; [exact H|].
  exact (proj1 C4_canonical_header_lines _ _ _ H).
Defined.

(** C5: a signed header other than [expect] and [host] with no entry in the
    header map under its canonical key makes [getCanonicalHeaders] return
    the empty string and [ErrMissingRequiredSignedHeader]; the loop stops at
    such a header whatever it has built and whatever follows; an error is
    returned in this case only; and the lookup does not depend on the case
    of the letters of the signed name. *)
Theorem C5_missing_signed_header :
  (forall signedHeaders req header,
      header ∈ signedHeaders ->
      header <> "expect" -> header <> "host" ->
      Header req !! CanonicalHeaderKey header = None ->
      getCanonicalHeaders signedHeaders req
      = ("", Some ErrMissingRequiredSignedHeader))
  /\ (forall header rest req canonicalHeaders,
      header <> "expect" -> header <> "host" ->
      Header req !! CanonicalHeaderKey header = None ->
      headersLoop (header :: rest) req canonicalHeaders
      = ("", Some ErrMissingRequiredSignedHeader))
  /\ (forall signedHeaders req out e,
      getCanonicalHeaders signedHeaders req = (out, Some e) ->
      out = "" /\ e = ErrMissingRequiredSignedHeader
      /\ exists header,
          header ∈ signedHeaders /\ header <> "expect" /\ header <> "host"
          /\ Header req !! CanonicalHeaderKey header = None)
  /\ (forall req header header',
      validName header = true -> validName header' = true ->
      sameFold header header' ->
      Header req !! CanonicalHeaderKey header
      = Header req !! CanonicalHeaderKey header').
Proof.
  split; [|split; [|split]]; cycle 3.
  { intros req h h' Hv Hv' Hf. now rewrite (CanonicalHeaderKey_fold h h'). }
  - intros sh req h Hin He Hh Hl. rewrite getCanonicalHeaders_spec.
    rewrite (proj2 (canonicalLines_None req sh)); [reflexivity|].
    exists h. split; [exact Hin|]. now apply signedValues_None.
  - intros h rest req acc He Hh Hl. rewrite headersLoop_spec.
    cbn [canonicalLines].
    now rewrite (proj2 (signedValues_None req h) (conj He (conj Hh Hl))).
  - intros sh req out e H. rewrite getCanonicalHeaders_spec in H.
    destruct (canonicalLines req sh) as [lines|] eqn:El; [discriminate|].
    injection H as <- <-. split; [reflexivity|]. split; [reflexivity|].
    apply canonicalLines_None in El as (h & Hin & Hn).
    apply signedValues_None in Hn. exists h. tauto.
Qed.

Lemma C5_missing_signed_header_witness :
  let req := {| Header := <["Content-Type" := ["text/plain"]]> ∅;
                Host := "example.com" |} in
  getCanonicalHeaders ["content-type"; "x-custom-header"; "host"] req
  = ("", Some ErrMissingRequiredSignedHeader)
  /\ headersLoop ["x-custom-header"; "host"] req
       ("content-type:text/plain" +:+ LF)
     = ("", Some ErrMissingRequiredSignedHeader)
  /\ (exists header,
      header ∈ ["content-type"; "x-custom-header"; "host"]
      /\ header <> "expect" /\ header <> "host"
      /\ Header req !! CanonicalHeaderKey header = None)
  /\ validName "content-type" = true /\ validName "CONTENT-Type" = true
  /\ sameFold "content-type" "CONTENT-Type"
  /\ Header req !! CanonicalHeaderKey "content-type"
     = Header req !! CanonicalHeaderKey "CONTENT-Type".
Proof.
  intros req.
  assert (Hf : sameFold "content-type" "CONTENT-Type") by reflexivity.
  assert (Hin : "x-custom-header" ∈ ["content-type"; "x-custom-header"; "host"])
    by (right; left).
  assert (He : "x-custom-header" <> "expect") by discriminate.
  assert (Hh : "x-custom-header" <> "host") by discriminate.
  assert (Hl : Header req !! CanonicalHeaderKey "x-custom-header" = None)
    by (vm_compute; reflexivity).
  pose proof (proj1 C5_missing_signed_header _ req _ Hin He Hh Hl) as H1.
  split; [exact H1|].
  split; [exact (proj1 (proj2 C5_missing_signed_header) _ ["host"] req _ He Hh Hl)|].
  split; [exact (proj2 (proj2 (proj1 (proj2 (proj2 C5_missing_signed_header))
                                 _ _ _ _ H1)))|].
  split; [reflexivity|]. split; [reflexivity|]. split; [exact Hf|].
  exact (proj2 (proj2 (proj2 C5_missing_signed_header))
           req "content-type" "CONTENT-Type" eq_refl eq_refl Hf).
Defined.

(** C6: a signed header [expect] always counts as present with the single
    value [100-continue], whatever the header map holds: alone it gives
    [expect:100-continue\n] with no error, also on a request that stores
    other values under [Expect], and in a longer list it contributes this
    line between the lines of the headers around it. *)
Theorem C6_expect_is_always_present :
  (forall req,
      getCanonicalHeaders ["expect"] req = ("expect:100-continue" +:+ LF, None))
  /\ (forall req, signedValues req "expect" = Some ["100-continue"])
  /\ (forall (hdrs : gmap string (list string)) values host,
      getCanonicalHeaders ["expect"]
        {| Header := <["Expect" := values]> hdrs; Host := host |}
      = getCanonicalHeaders ["expect"]
          {| Header := delete "Expect" hdrs; Host := host |})
  /\ (forall before after req out1 out2,
      getCanonicalHeaders before req = (out1, None) ->
      getCanonicalHeaders after req = (out2, None) ->
      getCanonicalHeaders (before ++ "expect" :: after) req
      = (out1 +:+ "expect:100-continue" +:+ LF +:+ out2, None)).
Proof.
  split; [|split; [|split]].
  - intros req. rewrite getCanonicalHeaders_spec. reflexivity.
  - reflexivity.
  - intros hdrs values host. now rewrite !getCanonicalHeaders_spec.
  - intros before after req out1 out2 H1 H2.
    rewrite getCanonicalHeaders_spec in *. rewrite canonicalLines_app.
    cbn [canonicalLines].
    destruct (canonicalLines req before); [|discriminate].
    destruct (canonicalLines req after); [|discriminate].
    injection H1 as <-. injection H2 as <-.
    change (signedValues req "expect") with (Some ["100-continue"]).
    reflexivity.
Qed.

Lemma C6_expect_is_always_present_witness :
  let req := {| Header := <["X-Amz-Date" := ["20150101T000000Z"]]> ∅;
                Host := "example.com" |} in
  getCanonicalHeaders ["host"] req = ("host:example.com" +:+ LF, None)
  /\ getCanonicalHeaders ["x-amz-date"] req
     = ("x-amz-date:20150101T000000Z" +:+ LF, None)
  /\ getCanonicalHeaders ["host"; "expect"; "x-amz-date"] req
     = ("host:example.com" +:+ LF +:+ "expect:100-continue" +:+ LF
        +:+ "x-amz-date:20150101T000000Z" +:+ LF, None).
Proof.
  intros req. split; [reflexivity|]. split; [reflexivity|].
  exact (proj2 (proj2 (proj2 C6_expect_is_always_present))
           ["host"] ["x-amz-date"] req
           ("host:example.com" +:+ LF) ("x-amz-date:20150101T000000Z" +:+ LF)
           eq_refl eq_refl).
Defined.

(** C7: a signed header [host] always counts as present with the single
    value [req.Host], whatever the header map holds under [Host]: alone it
    gives the line [host:] followed by the host field, and in a longer list
    it contributes this line between the lines of the headers around it. *)
Theorem C7_host_from_request_field :
  (forall req,
      getCanonicalHeaders ["host"] req = ("host:" +:+ Host req +:+ LF, None))
  /\ (forall req, signedValues req "host" = Some [Host req])
  /\ (forall (hdrs : gmap string (list string)) values host,
      getCanonicalHeaders ["host"]
        {| Header := <["Host" := values]> hdrs; Host := host |}
      = ("host:" +:+ host +:+ LF, None))
  /\ (forall before after req out1 out2,
      getCanonicalHeaders before req = (out1, None) ->
      getCanonicalHeaders after req = (out2, None) ->
      getCanonicalHeaders (before ++ "host" :: after) req
      = (out1 +:+ "host:" +:+ Host req +:+ LF +:+ out2, None)).
Proof.
  split; [|split; [|split]].
  - intros req. rewrite getCanonicalHeaders_spec. cbn [canonicalLines].
    change (signedValues req "host") with (Some [Host req]).
    unfold headerLine. cbn [joinComma]. now rewrite append_nil_r.
  - reflexivity.
  - intros hdrs values host. rewrite getCanonicalHeaders_spec.
    cbn [canonicalLines].
    change (signedValues _ "host") with (Some [host]).
    unfold headerLine. cbn [joinComma]. now rewrite append_nil_r.
  - intros before after req out1 out2 H1 H2.
    rewrite getCanonicalHeaders_spec in *. rewrite canonicalLines_app.
    cbn [canonicalLines].
    destruct (canonicalLines req before); [|discriminate].
    destruct (canonicalLines req after); [|discriminate].
    injection H1 as <-. injection H2 as <-.
    change (signedValues req "host") with (Some [Host req]).
    unfold headerLine. cbn [joinComma]. now rewrite !append_assoc.
Qed.

Lemma C7_host_from_request_field_witness :
  let req := {| Header := <["Host" := ["other.example"; "third.example"]]>
                            (<["X-Amz-Date" := ["20150101T000000Z"]]> ∅);
                Host := "example.com" |} in
  getCanonicalHeaders ["x-amz-date"] req
  = ("x-amz-date:20150101T000000Z" +:+ LF, None)
  /\ getCanonicalHeaders ["expect"] req = ("expect:100-continue" +:+ LF, None)
  /\ getCanonicalHeaders ["x-amz-date"; "host"; "expect"] req
     = ("x-amz-date:20150101T000000Z" +:+ LF +:+ "host:example.com" +:+ LF
        +:+ "expect:100-continue" +:+ LF, None).
Proof.
  intros req. split; [reflexivity|]. split; [reflexivity|].
  exact (proj2 (proj2 (proj2 C7_host_from_request_field))
           ["x-amz-date"] ["expect"] req
           ("x-amz-date:20150101T000000Z" +:+ LF) ("expect:100-continue" +:+ LF)
           eq_refl eq_refl).
Defined.

(** C8: [isValidRegion] accepts the empty string, and accepts a non-empty
    string exactly when it is the configured region [REGION], compared byte
    for byte (so not in another letter case); it always returns a boolean. *)
Theorem C8_isValidRegion :
  isValidRegion "" = true
  /\ (forall reqRegion,
      reqRegion <> "" -> (isValidRegion reqRegion = true <-> reqRegion = REGION))
  /\ isValidRegion REGION = true
  /\ isValidRegion "CN-BJ-1" = false
  /\ isValidRegion "wrong-region" = false.
Proof.
  split; [reflexivity|]. split; [|repeat split].
  intros s Hne. unfold isValidRegion.
  destruct (String.eqb_spec s "") as [-> | _]; [congruence|].
  destruct (String.eqb_spec s REGION); split; congruence.
Qed.

Lemma C8_isValidRegion_witness :
  "cn-bj-1" <> "" /\ "cn-bj-2" <> ""
  /\ isValidRegion "cn-bj-1" = true /\ isValidRegion "cn-bj-2" <> true.
Proof.
  assert (H1 : "cn-bj-1" <> "") by discriminate.
  assert (H2 : "cn-bj-2" <> "") by discriminate.
  split; [exact H1|]. split; [exact H2|]. split.
  - exact (proj2 (proj1 (proj2 C8_isValidRegion) "cn-bj-1" H1) eq_refl).
  - intros Ht.
    pose proof (proj1 (proj1 (proj2 C8_isValidRegion) "cn-bj-2" H2) Ht) as E.
    discriminate E.
Defined.

(** C9: for every key and every data, empty ones included, [sumHMAC]
    returns 32 bytes, and equal arguments give equal results. *)
Theorem C9_sumHMAC_digest :
  (forall key data, length (sumHMAC key data) = 32%nat)
  /\ length (sumHMAC [] []) = 32%nat
  /\ (forall key1 data1 key2 data2,
      key1 = key2 -> data1 = data2 ->
      sumHMAC key1 data1 = sumHMAC key2 data2).
Proof.
  assert (H : forall key data, length (sumHMAC key data) = 32%nat).
  { intros key data. cbv zeta in *. rewrite sumHMAC_unfold.
    apply length_checkSum. }
  split; [exact H|]. split; [apply H|].
  intros key1 data1 key2 data2 -> ->. reflexivity.
Qed.

Lemma C9_sumHMAC_digest_witness :
  sumHMAC (bytes_of_string "Jefe") (bytes_of_string "what do ya want")
  = sumHMAC (bytes_of_string ("Je" +:+ "fe"))
            (bytes_of_string ("what do" +:+ " ya want")).
Proof.
  exact (proj2 (proj2 C9_sumHMAC_digest) _ _ _ _ eq_refl eq_refl).
Defined.

(** C10: the signed headers [host] and [expect] never make
    [getCanonicalHeaders] fail; with an empty host field a signed [host]
    gives the line [host:\n]; and only these exact lowercase names are
    compensated: any other spelling with no entry in the header map under
    its canonical key fails. *)
Theorem C10_host_expect_never_missing :
  (forall signedHeaders req,
      Forall (fun header => header = "host" \/ header = "expect") signedHeaders ->
      snd (getCanonicalHeaders signedHeaders req) = None)
  /\ (forall hdrs : gmap string (list string),
      getCanonicalHeaders ["host"] {| Header := hdrs; Host := "" |}
      = ("host:" +:+ LF, None))
  /\ (forall header req,
      header <> "host" -> header <> "expect" ->
      Header req !! CanonicalHeaderKey header = None ->
      getCanonicalHeaders [header] req
      = ("", Some ErrMissingRequiredSignedHeader))
  /\ getCanonicalHeaders ["Host"] {| Header := ∅; Host := "example.com" |}
     = ("", Some ErrMissingRequiredSignedHeader)
  /\ getCanonicalHeaders ["Expect"] {| Header := ∅; Host := "example.com" |}
     = ("", Some ErrMissingRequiredSignedHeader).
Proof.
  split; [|split; [|split; [|split]]].
  - intros sh req Hall. rewrite getCanonicalHeaders_spec.
    destruct (canonicalLines req sh) eqn:El; [reflexivity|].
    apply canonicalLines_None in El as (h & Hin & Hn).
    apply signedValues_None in Hn as (He & Hh & _).
    rewrite Forall_forall in Hall. destruct (Hall h Hin); congruence.
  - intros hdrs. rewrite getCanonicalHeaders_spec. reflexivity.
  - intros h req Hh He Hl. rewrite getCanonicalHeaders_spec.
    cbn [canonicalLines].
    now rewrite (proj2 (signedValues_None req h) (conj He (conj Hh Hl))).
  - vm_compute. reflexivity.
  - vm_compute. reflexivity.
Qed.

Lemma C10_host_expect_never_missing_witness :
  let req := {| Header := ∅; Host := "" |} in
  Forall (fun header => header = "host" \/ header = "expect")
         ["host"; "expect"; "host"]
  /\ snd (getCanonicalHeaders ["host"; "expect"; "host"] req) = None
  /\ "HOST" <> "host" /\ "HOST" <> "expect"
  /\ Header req !! CanonicalHeaderKey "HOST" = None
  /\ getCanonicalHeaders ["HOST"] req
     = ("", Some ErrMissingRequiredSignedHeader).
Proof.
  intros req.
  assert (Hall : Forall (fun header => header = "host" \/ header = "expect")
                        ["host"; "expect"; "host"])
    by (repeat constructor; auto).
  assert (H1 : "HOST" <> "host") by discriminate.
  assert (H2 : "HOST" <> "expect") by discriminate.
  assert (H3 : Header req !! CanonicalHeaderKey "HOST" = None)
    by (vm_compute; reflexivity).
  split; [exact Hall|].
  split; [exact (proj1 C10_host_expect_never_missing _ req Hall)|].
  split; [exact H1|]. split; [exact H2|]. split; [exact H3|].
  exact (proj1 (proj2 (proj2 C10_host_expect_never_missing)) _ req H1 H2 H3).
Defined.

(** ** Further properties of [getURLEncodedName] *)

Local Close Scope string_scope.

Lemma bytes_of_string_app (s t : string) :
  bytes_of_string (s +:+ t) = bytes_of_string s ++ bytes_of_string t.
Proof.
  induction s as [|c s IH]; [reflexivity|].
  rewrite append_cons. cbn [bytes_of_string list_ascii_of_string app].
  unfold bytes_of_string in IH. now rewrite IH.
Qed.

Lemma length_append (s t : string) :
  String.length (s +:+ t) = (String.length s + String.length t)%nat.
Proof.
  induction s as [|c s IH]; [reflexivity|].
  rewrite append_cons. cbn [String.length]. now rewrite IH.
Qed.

Lemma allBytes_app (P : byte -> bool) (s t : string) :
  allBytes P (s +:+ t) = allBytes P s && allBytes P t.
Proof. unfold allBytes. now rewrite bytes_of_string_app, forallb_app. Qed.

Lemma allBytes_concat (P : byte -> bool) (l : list string) :
  allBytes P (concatStrings l) = forallb (allBytes P) l.
Proof.
  induction l as [|s l IH]; [reflexivity|].
  cbn [concatStrings forallb]. now rewrite allBytes_app, IH.
Qed.

(** On ASCII bytes the [range] clause yields one rune per byte. *)
Lemma rangeFrom_ascii (l : list byte) :
  forallb (fun b => b2z b <? 128) l = true -> rangeFrom 0 l = map b2z l.
Proof.
  induction l as [|b l IH]; [reflexivity|]. cbn [forallb].
  intros H. apply andb_true_iff in H as [Hb Hl]. apply Z.ltb_lt in Hb.
  rewrite rangeFrom_cons, rangeStep_ascii by exact Hb.
  cbn [fst snd Nat.sub map]. now rewrite IH.
Qed.

(** X1: the fast path of [getURLEncodedName] is an optimisation only: on
    every input the loop alone, started on the empty string, returns what
    the function returns. *)
Theorem X1_fast_path_is_redundant (name : string) :
  encodeLoop name (rangeRunes name) "" = getURLEncodedName name.
Proof.
  rewrite getURLEncodedName_spec.
  now rewrite encodeLoop_spec by apply rangeRunes_scalar.
Qed.

Lemma encodeCodePoint_byte (b : byte) :
  b2z b < 128 ->
  encodeCodePoint (b2z b)
  = if unreservedByte b then String b EmptyString else percentTriplet b.
Proof.
  intros Hb. pose proof (b2z_range b). unfold encodeCodePoint.
  rewrite <- unreservedByte_rune. destruct (unreservedByte b).
  - now rewrite z2b_b2z.
  - unfold utf8. ztest. rewrite z2b_b2z. cbn [map concatStrings].
    now rewrite append_nil_r.
Qed.

Lemma length_encode_ascii (l : list byte) :
  forallb (fun b => b2z b <? 128) l = true ->
  (length l <= String.length (concatStrings (map encodeCodePoint (map b2z l))))%nat
  /\ (String.length (concatStrings (map encodeCodePoint (map b2z l))) = length l ->
      forallb unreservedByte l = true).
Proof.
  induction l as [|b l IH]; [split; [simpl; lia | reflexivity]|].
  cbn [forallb map concatStrings length]. intros H.
  apply andb_true_iff in H as [Hb Hl]. apply Z.ltb_lt in Hb.
  destruct (IH Hl) as [Hle Heq]. rewrite length_append.
  rewrite encodeCodePoint_byte by exact Hb.
  destruct (unreservedByte b); cbn [String.length percentTriplet andb].
  - split; [lia|]. intros E. apply Heq. lia.
  - split; [lia|]. intros E. lia.
Qed.

(** X2: the names [getURLEncodedName] returns unchanged are exactly those
    made of ASCII letters, digits and [- _ . ~ /] only (the empty name among
    them): every other name comes back different. *)
Theorem X2_unchanged_iff_unreserved (name : string) :
  getURLEncodedName name = Some name <-> allUnreserved name = true.
Proof.
  split.
  - intros H. pose proof (getURLEncodedName_ascii _ _ H) as Ha.
    rewrite getURLEncodedName_spec in H. injection H as H.
    unfold rangeRunes, asciiOnly, allUnreserved in *.
    rewrite rangeFrom_ascii in H by exact Ha.
    apply (length_encode_ascii _ Ha). rewrite H.
    rewrite <- (string_of_bytes_of_string name) at 1.
    generalize (bytes_of_string name) as l.
    induction l as [|b l IH]; [reflexivity|]. simpl. now rewrite IH.
  - intros H. unfold getURLEncodedName. rewrite MatchString_spec.
    destruct name as [|c rest]; [reflexivity|]. now rewrite H.
Qed.

Lemma escaped_percentTriplet (b : byte) :
  allBytes escapedByte (percentTriplet b) = true.
Proof.
  destruct b as [[] [] [] [] [] [] [] []]; vm_compute; reflexivity.
Qed.

Lemma escaped_encodeCodePoint (c : Z) :
  allBytes escapedByte (encodeCodePoint c) = true.
Proof.
  unfold encodeCodePoint. destruct (unreservedRune c) eqn:Eu.
  - unfold allBytes, escapedByte.
    cbn [bytes_of_string list_ascii_of_string forallb].
    unfold unreservedRune in Eu. apply andb_true_iff in Eu as [_ ->].
    reflexivity.
  - rewrite allBytes_concat, forallb_forall. intros s Hs.
    apply in_map_iff in Hs as (b & <- & _). apply escaped_percentTriplet.
Qed.

(** X3: whatever the input, the encoded name holds only ASCII letters,
    digits, [- _ . ~ /] and [%]. *)
Theorem X3_output_alphabet (name out : string) :
  getURLEncodedName name = Some out ->
  allBytes escapedByte out = true.
Proof.
  rewrite getURLEncodedName_spec. intros [= <-].
  rewrite allBytes_concat, forallb_forall. intros s Hs.
  apply in_map_iff in Hs as (c & <- & _). apply escaped_encodeCodePoint.
Qed.

Lemma X3_output_alphabet_witness :
  getURLEncodedName "a b/%+" = Some "a%20b/%25%2B"
  /\ allBytes escapedByte "a%20b/%25%2B" = true.
Proof.
  assert (H : getURLEncodedName "a b/%+" = Some "a%20b/%25%2B")
    by (vm_compute; reflexivity).
  split; [exact H | exact (X3_output_alphabet _ _ H)].
Defined.

(** *** Percent-decoding reads the name back *)

Lemma percentDecode_percent (h l : byte) (rest : string) (x y : Z) :
  hexValue h = Some x -> hexValue l = Some y ->
  percentDecode (String "%" (String h (String l rest)))
  = match percentDecode rest with
    | Some t => Some (String (z2b (16 * x + y)) t)
    | None => None
    end.
Proof.
  intros Hx Hy. cbn [percentDecode].
  change (b2z "%" =? 37) with true. cbv iota. now rewrite Hx, Hy.
Qed.

Lemma hexValue_digits (b : byte) :
  hexValue (upperHexDigit (b2z b / 16)) = Some (b2z b / 16)
  /\ hexValue (upperHexDigit (b2z b mod 16)) = Some (b2z b mod 16)
  /\ z2b (16 * (b2z b / 16) + b2z b mod 16) = b.
Proof.
  destruct b as [[] [] [] [] [] [] [] []]; vm_compute; repeat split.
Qed.

Lemma percentDecode_triplet (b : byte) (rest : string) :
  percentDecode (percentTriplet b +:+ rest)
  = match percentDecode rest with
    | Some t => Some (String b t)
    | None => None
    end.
Proof.
  destruct (hexValue_digits b) as (Hh & Hl & Hb).
  unfold percentTriplet. rewrite !append_cons, append_nil_l.
  rewrite (percentDecode_percent _ _ rest _ _ Hh Hl). now rewrite Hb.
Qed.

Lemma percentDecode_triplets (bs : list byte) (rest : string) :
  percentDecode (concatStrings (map percentTriplet bs) +:+ rest)
  = match percentDecode rest with
    | Some t => Some (string_of_bytes bs +:+ t)
    | None => None
    end.
Proof.
  induction bs as [|b bs IH]; cbn [map concatStrings].
  - rewrite append_nil_l. now destruct (percentDecode rest).
  - rewrite append_assoc, percentDecode_triplet, IH.
    destruct (percentDecode rest); reflexivity.
Qed.

Lemma percentDecode_encodeCodePoint (c : Z) (rest : string) :
  percentDecode (encodeCodePoint c +:+ rest)
  = match percentDecode rest with
    | Some t => Some (string_of_bytes (utf8 c) +:+ t)
    | None => None
    end.
Proof.
  unfold encodeCodePoint. destruct (unreservedRune c) eqn:Eu.
  - assert (Hc : 0 <= c < 128 /\ unreservedByte (z2b c) = true)
      by (revert Eu; unfold unreservedRune;
          rewrite !andb_true_iff, Z.leb_le, Z.ltb_lt; tauto).
    destruct Hc as [Hc Hu].
    assert (Hp : b2z (z2b c) <> 37).
    { intros E. revert Hu. unfold unreservedByte. rewrite E.
      vm_compute. discriminate. }
    rewrite append_cons, append_nil_l.
    change (percentDecode (String (z2b c) rest))
      with (if b2z (z2b c) =? 37
            then match rest with
                 | String h (String l rest') =>
                     match hexValue h, hexValue l, percentDecode rest' with
                     | Some x, Some y, Some t =>
                         Some (String (z2b (16 * x + y)) t)
                     | _, _, _ => None
                     end
                 | _ => None
                 end
            else match percentDecode rest with
                 | Some t => Some (String (z2b c) t)
                 | None => None
                 end).
    rewrite (proj2 (Z.eqb_neq _ _) Hp).
    unfold utf8. ztest. reflexivity.
  - apply percentDecode_triplets.
Qed.

Lemma percentDecode_encoded (cs : list Z) :
  percentDecode (concatStrings (map encodeCodePoint cs)) = Some (utf8String cs).
Proof.
  unfold utf8String.
  induction cs as [|c cs IH]; [reflexivity|].
  cbn [map concatStrings flat_map].
  now rewrite percentDecode_encodeCodePoint, IH, string_of_bytes_app.
Qed.

(** X4: percent-decoding the encoded name gives back the name, when the
    name is valid UTF-8. *)
Theorem X4_percent_decode_round_trip (name out : string) :
  validUTF8 name ->
  getURLEncodedName name = Some out ->
  percentDecode out = Some name.
Proof.
  intros (cs & Hcs & ->). rewrite getURLEncodedName_spec. intros [= <-].
  rewrite rangeRunes_utf8String by exact Hcs. apply percentDecode_encoded.
Qed.

Lemma valid_example : validUTF8 (utf8String [0x4E2D; 0x2F; 0x20; 0x1F600]).
Proof. eexists. split; [|reflexivity]. repeat constructor. Qed.

Lemma X4_percent_decode_round_trip_witness :
  validUTF8 (utf8String [0x4E2D; 0x2F; 0x20; 0x1F600])
  /\ getURLEncodedName (utf8String [0x4E2D; 0x2F; 0x20; 0x1F600])
     = Some "%E4%B8%AD/%20%F0%9F%98%80"
  /\ percentDecode "%E4%B8%AD/%20%F0%9F%98%80"
     = Some (utf8String [0x4E2D; 0x2F; 0x20; 0x1F600]).
Proof.
  assert (H : getURLEncodedName (utf8String [0x4E2D; 0x2F; 0x20; 0x1F600])
              = Some "%E4%B8%AD/%20%F0%9F%98%80") by (vm_compute; reflexivity).
  split; [exact valid_example|]. split; [exact H|].
  exact (X4_percent_decode_round_trip _ _ valid_example H).
Defined.

(** X5: two names that are valid UTF-8 and have the same encoding are the
    same name. *)
Theorem X5_injective_on_valid_names (name1 name2 : string) :
  validUTF8 name1 -> validUTF8 name2 ->
  getURLEncodedName name1 = getURLEncodedName name2 ->
  name1 = name2.
Proof.
  intros H1 H2 E.
  destruct (getURLEncodedName name1) as [out|] eqn:E1.
  - destruct H1 as (cs1 & Hs1 & ->), H2 as (cs2 & Hs2 & ->).
    rewrite getURLEncodedName_spec, rangeRunes_utf8String in E1 by exact Hs1.
    symmetry in E.
    rewrite getURLEncodedName_spec, rangeRunes_utf8String in E by exact Hs2.
    injection E1 as <-. injection E as E.
    pose proof (percentDecode_encoded cs1) as D1.
    pose proof (percentDecode_encoded cs2) as D2.
    rewrite E in D2. congruence.
  - rewrite getURLEncodedName_spec in E1. discriminate.
Qed.

Lemma X5_injective_on_valid_names_witness :
  validUTF8 (utf8String [0x4E2D; 0x2F; 0x20; 0x1F600])
  /\ validUTF8 (utf8String ([0x4E2D; 0x2F] ++ [0x20; 0x1F600]))
  /\ utf8String [0x4E2D; 0x2F; 0x20; 0x1F600]
     = utf8String ([0x4E2D; 0x2F] ++ [0x20; 0x1F600]).
Proof.
  split; [exact valid_example|]. split; [exact valid_example|].
  exact (X5_injective_on_valid_names _ _ valid_example valid_example eq_refl).
Defined.

(** *** Concatenation *)

Lemma rangeFrom_utf8_app (cs : list Z) (l : list byte) :
  Forall (fun c => isScalar c = true) cs ->
  rangeFrom 0 (flat_map utf8 cs ++ l) = cs ++ rangeFrom 0 l.
Proof.
  induction 1 as [|c cs Hc _ IH]; [reflexivity|].
  cbn [flat_map]. rewrite <- app_assoc, rangeFrom_utf8 by exact Hc.
  now rewrite IH.
Qed.

(** X6: encoding goes through concatenation when the first part is valid
    UTF-8: the encoding of [name1 + name2] is the encoding of [name1]
    followed by the encoding of [name2]. *)
Theorem X6_encode_concatenation (name1 name2 out1 out2 : string) :
  validUTF8 name1 ->
  getURLEncodedName name1 = Some out1 ->
  getURLEncodedName name2 = Some out2 ->
  getURLEncodedName (name1 +:+ name2) = Some (out1 +:+ out2).
Proof.
  intros (cs & Hcs & ->). rewrite !getURLEncodedName_spec.
  intros [= <-] [= <-]. f_equal.
  unfold rangeRunes, utf8String.
  rewrite bytes_of_string_app, !bytes_of_string_of_bytes.
  rewrite rangeFrom_utf8_app by exact Hcs.
  rewrite <- (app_nil_r (flat_map utf8 cs)).
  rewrite rangeFrom_utf8_app by exact Hcs. cbn [rangeFrom].
  now rewrite app_nil_r, map_app, concatStrings_app.
Qed.

Lemma X6_encode_concatenation_witness :
  validUTF8 (utf8String [0x4E2D; 0x2F; 0x20; 0x1F600])
  /\ getURLEncodedName (utf8String [0x4E2D; 0x2F; 0x20; 0x1F600])
     = Some "%E4%B8%AD/%20%F0%9F%98%80"
  /\ getURLEncodedName "/a b" = Some "/a%20b"
  /\ getURLEncodedName (utf8String [0x4E2D; 0x2F; 0x20; 0x1F600] +:+ "/a b")
     = Some ("%E4%B8%AD/%20%F0%9F%98%80" +:+ "/a%20b").
Proof.
  assert (H1 : getURLEncodedName (utf8String [0x4E2D; 0x2F; 0x20; 0x1F600])
               = Some "%E4%B8%AD/%20%F0%9F%98%80") by (vm_compute; reflexivity).
  assert (H2 : getURLEncodedName "/a b" = Some "/a%20b")
    by (vm_compute; reflexivity).
  split; [exact valid_example|]. split; [exact H1|]. split; [exact H2|].
  exact (X6_encode_concatenation _ _ _ _ valid_example H1 H2).
Defined.

(** *** The length of the encoded name *)

Lemma rangeFrom_drop (l : list byte) :
  forall k, rangeFrom k l = rangeFrom 0 (drop k l).
Proof.
  induction l as [|c rest IH]; intros [|k]; try reflexivity.
  rewrite rangeFrom_skip. cbn [drop]. apply IH.
Qed.

Lemma decoderune_width (c : byte) (rest : list byte) :
  (snd (decoderune (c :: rest)) <= length (c :: rest))%nat.
Proof.
  unfold decoderune.
  destruct rest as [|s1 [|s2 [|s3 rest]]];
    repeat match goal with
      | |- context [if ?b then _ else _] => destruct b
      end;
    cbn [snd length]; lia.
Qed.

Lemma rangeStep_width (c : byte) (rest : list byte) :
  (1 <= snd (rangeStep (c :: rest)) <= length (c :: rest))%nat.
Proof.
  pose proof (rangeStep_result (c :: rest)) as H.
  destruct (rangeStep (c :: rest)) as [r w] eqn:E. destruct H as [_ H].
  split; [exact H|]. cbn [snd]. revert E. unfold rangeStep.
  destruct (b2z c <? RuneSelf).
  - intros [= _ <-]. simpl. lia.
  - intros E. pose proof (decoderune_width c rest) as Hw.
    rewrite E in Hw. exact Hw.
Qed.

Lemma length_triplets (bs : list byte) :
  String.length (concatStrings (map percentTriplet bs)) = (3 * length bs)%nat.
Proof.
  induction bs as [|b bs IH]; [reflexivity|].
  cbn [map concatStrings length]. rewrite length_append, IH.
  cbn [percentTriplet String.length]. lia.
Qed.

Lemma length_encodeCodePoint (c : Z) :
  (1 <= String.length (encodeCodePoint c) <= 3 * length (utf8 c))%nat.
Proof.
  unfold encodeCodePoint. destruct (utf8_nonempty c) as (b & tl & E).
  destruct (unreservedRune c).
  - rewrite E. simpl. lia.
  - rewrite length_triplets, E. simpl. lia.
Qed.

Lemma length_encodeCodePoint_high (c : Z) :
  128 <= c ->
  String.length (encodeCodePoint c) = (3 * length (utf8 c))%nat.
Proof.
  intros H. unfold encodeCodePoint.
  replace (unreservedRune c) with false
    by (unfold unreservedRune; ztest; now rewrite andb_false_r).
  apply length_triplets.
Qed.

(** What one iteration of the loop adds, against the bytes it reads. *)
Lemma length_step (c : byte) (rest : list byte) :
  let '(r, w) := rangeStep (c :: rest) in
  (w <= String.length (encodeCodePoint r) <= 9 * w)%nat.
Proof.
  unfold rangeStep, RuneSelf. destruct (Z.ltb_spec (b2z c) 128) as [Hc | Hc].
  - rewrite encodeCodePoint_byte by exact Hc.
    destruct (unreservedByte c); simpl; lia.
  - pose proof (decoderune_result (c :: rest)) as H.
    destruct (decoderune (c :: rest)) as [r w].
    destruct H as [Hs [[-> ->] | [Hr Hw]]]; [vm_compute; lia|].
    rewrite length_encodeCodePoint_high by exact Hr.
    rewrite (utf8_length r Hs) in Hw. lia.
Qed.

Lemma length_encoded_bytes (n : nat) :
  forall l, (length l <= n)%nat ->
  (length l
   <= String.length (concatStrings (map encodeCodePoint (rangeFrom 0 l)))
   <= 9 * length l)%nat.
Proof.
  induction n as [|n IH]; intros [|c rest] Hn; try (simpl; lia).
  - simpl in Hn. lia.
  - rewrite rangeFrom_cons, rangeFrom_drop. cbn [map concatStrings].
    rewrite length_append.
    pose proof (rangeStep_width c rest) as Hw.
    pose proof (length_step c rest) as Hs.
    destruct (rangeStep (c :: rest)) as [r w]. cbn [fst snd length] in *.
    assert (Hd : length (drop (w - 1) rest) = (length rest - (w - 1))%nat)
      by apply length_drop.
    specialize (IH (drop (w - 1) rest) ltac:(lia)). lia.
Qed.

Lemma length_bytes_of_string (s : string) :
  length (bytes_of_string s) = String.length s.
Proof. induction s as [|c s IH]; [reflexivity|]. simpl. now rewrite <- IH. Qed.

(** X7: the encoded name is at least as long as the name and at most nine
    times as long (a byte that is not valid UTF-8 becomes the nine
    characters [%EF%BF%BD]). *)
Theorem X7_encoded_length_bounds (name out : string) :
  getURLEncodedName name = Some out ->
  (String.length name <= String.length out <= 9 * String.length name)%nat.
Proof.
  rewrite getURLEncodedName_spec. intros [= <-].
  rewrite <- (length_bytes_of_string name).
  apply (length_encoded_bytes (length (bytes_of_string name))). lia.
Qed.

Lemma X7_encoded_length_bounds_witness :
  getURLEncodedName (String "255" "a") = Some "%EF%BF%BDa"
  /\ (String.length (String "255" "a") <= String.length "%EF%BF%BDa"
      <= 9 * String.length (String "255" "a"))%nat.
Proof.
  assert (H : getURLEncodedName (String "255" "a") = Some "%EF%BF%BDa")
    by (vm_compute; reflexivity).
  split; [exact H | exact (X7_encoded_length_bounds _ _ H)].
Defined.

(** X8: on a name that is valid UTF-8 the encoded name is at most three
    times as long as the name. *)
Theorem X8_encoded_length_valid (name out : string) :
  validUTF8 name ->
  getURLEncodedName name = Some out ->
  (String.length out <= 3 * String.length name)%nat.
Proof.
  intros (cs & Hcs & ->). rewrite getURLEncodedName_spec. intros [= <-].
  rewrite rangeRunes_utf8String by exact Hcs.
  rewrite <- (length_bytes_of_string (utf8String cs)).
  unfold utf8String. rewrite bytes_of_string_of_bytes. clear Hcs.
  induction cs as [|c cs IH]; [simpl; lia|].
  cbn [map concatStrings flat_map]. rewrite length_append, length_app.
  pose proof (length_encodeCodePoint c). lia.
Qed.

Lemma X8_encoded_length_valid_witness :
  validUTF8 (utf8String [0x4E2D; 0x2F; 0x20; 0x1F600])
  /\ getURLEncodedName (utf8String [0x4E2D; 0x2F; 0x20; 0x1F600])
     = Some "%E4%B8%AD/%20%F0%9F%98%80"
  /\ (String.length "%E4%B8%AD/%20%F0%9F%98%80"
      <= 3 * String.length (utf8String [0x4E2D; 0x2F; 0x20; 0x1F600]%Z))%nat.
Proof.
  assert (H : getURLEncodedName (utf8String [0x4E2D; 0x2F; 0x20; 0x1F600])
              = Some "%E4%B8%AD/%20%F0%9F%98%80") by (vm_compute; reflexivity).
  split; [exact valid_example|]. split; [exact H|].
  exact (X8_encoded_length_valid _ _ valid_example H).
Defined.

(** X9: for every rune the loop meets, the buffer [make([]byte, len)] has
    exactly the size [utf8.EncodeRune] needs: the call does not panic, it
    fills the whole buffer with the UTF-8 bytes of the rune and reports
    [len] bytes written, so no zero byte of the fresh buffer is ever
    escaped. *)
Theorem X9_buffer_is_filled (name : string) (s : rune) :
  s ∈ rangeRunes name ->
  0 <= RuneLen s
  /\ EncodeRune (replicate (Z.to_nat (RuneLen s)) zero) s
     = Some (utf8 s, RuneLen s)
  /\ length (utf8 s) = Z.to_nat (RuneLen s).
Proof.
  intros Hin.
  assert (Hs : isScalar s = true).
  { pose proof (rangeRunes_scalar name) as HF.
    rewrite Forall_forall in HF. now apply HF. }
  pose proof (RuneLen_scalar s Hs).
  split; [lia|]. split; [now apply EncodeRune_exact|].
  rewrite (utf8_length s Hs). now rewrite Nat2Z.id.
Qed.

Lemma X9_buffer_is_filled_witness :
  0x4E2D ∈ rangeRunes (utf8String [0x2F; 0x4E2D])
  /\ EncodeRune (replicate 3 zero) 0x4E2D
     = Some ([z2b 0xE4; z2b 0xB8; z2b 0xAD], 3).
Proof.
  assert (Hin : 0x4E2D ∈ rangeRunes (utf8String [0x2F; 0x4E2D]))
    by (right; left).
  split; [exact Hin|].
  exact (proj1 (proj2 (X9_buffer_is_filled _ _ Hin))).
Defined.

(** ** Further properties of [sumHMAC] *)

Lemma copy_pad (k : list byte) :
  (length k <= 64)%nat ->
  Hmac.copy (replicate 64 zero) k = k ++ replicate (64 - length k) zero.
Proof.
  intros H. unfold Hmac.copy. rewrite length_replicate.
  rewrite take_ge by exact H. now rewrite drop_replicate.
Qed.

Lemma hmac_key_length (key : list byte) :
  (length (if (64 <? length key)%nat then Sha256.checkSum key else key)
   <= 64)%nat.
Proof.
  destruct (Nat.ltb_spec 64 (length key)); [|lia].
  rewrite length_checkSum. unfold Sha256.Size. lia.
Qed.

(** X10: [sumHMAC] computes HMAC-SHA256 as RFC 2104 defines it: the hash
    objects of [hmac.New], [Write] and [Sum] amount to
    [H (K xor opad, H (K xor ipad, data))] with the key hashed first when it
    is longer than the 64-byte block, then padded with zeros. *)
Theorem X10_sumHMAC_is_rfc2104 (key data : list byte) :
  sumHMAC key data = hmacRFC2104 Sha256.checkSum 64 key data.
Proof.
  pose proof (sumHMAC_unfold key data) as H. cbv zeta in H. rewrite H.
  unfold hmacRFC2104. cbv zeta.
  rewrite copy_pad by apply hmac_key_length. reflexivity.
Qed.

(** X11: a key longer than 64 bytes is used through its SHA-256 digest: it
    gives the same result as the 32-byte digest used as the key. *)
Theorem X11_long_key_is_hashed (key data : list byte) :
  (64 < length key)%nat ->
  sumHMAC key data = sumHMAC (Sha256.checkSum key) data.
Proof.
  intros Hlen.
  pose proof (sumHMAC_unfold key data) as H1.
  pose proof (sumHMAC_unfold (Sha256.checkSum key) data) as H2.
  cbv zeta in H1, H2. rewrite H1, H2.
  rewrite (proj2 (Nat.ltb_lt _ _) Hlen).
  rewrite length_checkSum. reflexivity.
Qed.

Lemma X11_long_key_is_hashed_witness :
  (64 < length (replicate 131 (z2b 0xaa)))%nat
  /\ sumHMAC (replicate 131 (z2b 0xaa)) (bytes_of_string "data")
     = sumHMAC (Sha256.checkSum (replicate 131 (z2b 0xaa)))
               (bytes_of_string "data").
Proof.
  assert (H : (64 < length (replicate 131 (z2b 0xaa)))%nat)
    by (rewrite length_replicate; lia).
  split; [exact H | exact (X11_long_key_is_hashed _ _ H)].
Defined.

(** X12: zero bytes at the end of a key that stays within the 64-byte block
    do not count: the key with [n] zero bytes appended gives the same
    result. *)
Theorem X12_trailing_zeros_of_key (key data : list byte) (n : nat) :
  (length key + n <= 64)%nat ->
  sumHMAC (key ++ replicate n zero) data = sumHMAC key data.
Proof.
  intros Hlen.
  pose proof (sumHMAC_unfold key data) as H1.
  pose proof (sumHMAC_unfold (key ++ replicate n zero) data) as H2.
  cbv zeta in H1, H2. rewrite H1, H2.
  rewrite length_app, length_replicate.
  rewrite !(proj2 (Nat.ltb_ge _ _)) by lia.
  rewrite !copy_pad by (rewrite ?length_app, ?length_replicate; lia).
  rewrite length_app, length_replicate, <- app_assoc, <- replicate_add.
  replace (n + (64 - (length key + n)))%nat with (64 - length key)%nat by lia.
  reflexivity.
Qed.

Lemma X12_trailing_zeros_of_key_witness :
  (length (bytes_of_string "Jefe") + 3 <= 64)%nat
  /\ sumHMAC (bytes_of_string "Jefe" ++ replicate 3 zero) (bytes_of_string "data")
     = sumHMAC (bytes_of_string "Jefe") (bytes_of_string "data").
Proof.
  assert (H : (length (bytes_of_string "Jefe") + 3 <= 64)%nat)
    by (vm_compute; lia).
  split; [exact H | exact (X12_trailing_zeros_of_key _ _ 3%nat H)].
Defined.

(** ** Further properties of [getCanonicalHeaders] *)

(** X13: the canonical block of a concatenated list of signed headers is
    the block of the first part followed by the block of the second; it is
    an error as soon as one part is. *)
Theorem X13_headers_concatenation (before after : list string) (req : Request) :
  getCanonicalHeaders (before ++ after) req
  = match getCanonicalHeaders before req, getCanonicalHeaders after req with
    | (out1, None), (out2, None) => (out1 +:+ out2, None)
    | _, _ => ("", Some ErrMissingRequiredSignedHeader)
    end.
Proof.
  rewrite !getCanonicalHeaders_spec, canonicalLines_app.
  destruct (canonicalLines req before), (canonicalLines req after); reflexivity.
Qed.

(** X14: the result depends on the header map only through the entries of
    the signed headers: two requests with the same host field whose maps
    agree on the canonical key of every signed header give the same result,
    whatever other headers they carry. *)
Theorem X14_unsigned_headers_do_not_count
    (signedHeaders : list string) (hdrs hdrs' : gmap string (list string))
    (host : string) :
  (forall header, header ∈ signedHeaders ->
     hdrs !! CanonicalHeaderKey header = hdrs' !! CanonicalHeaderKey header) ->
  getCanonicalHeaders signedHeaders {| Header := hdrs; Host := host |}
  = getCanonicalHeaders signedHeaders {| Header := hdrs'; Host := host |}.
Proof.
  intros H. rewrite !getCanonicalHeaders_spec.
  replace (canonicalLines {| Header := hdrs'; Host := host |} signedHeaders)
    with (canonicalLines {| Header := hdrs; Host := host |} signedHeaders);
    [reflexivity|].
  induction signedHeaders as [|h rest IH]; [reflexivity|].
  cbn [canonicalLines].
  rewrite IH by (intros x Hx; apply H; now right).
  unfold signedValues. cbn [Header Host].
  rewrite (H h) by left. reflexivity.
Qed.

Lemma X14_unsigned_headers_do_not_count_witness :
  let hdrs : gmap string (list string) :=
    <["X-Amz-Date" := ["20150101T000000Z"]]> ∅ in
  let hdrs' : gmap string (list string) :=
    <["User-Agent" := ["curl"]]> (<["X-Amz-Date" := ["20150101T000000Z"]]> ∅) in
  (forall header, header ∈ ["host"; "x-amz-date"] ->
     hdrs !! CanonicalHeaderKey header = hdrs' !! CanonicalHeaderKey header)
  /\ getCanonicalHeaders ["host"; "x-amz-date"]
       {| Header := hdrs; Host := "example.com" |}
     = getCanonicalHeaders ["host"; "x-amz-date"]
         {| Header := hdrs'; Host := "example.com" |}.
Proof.
  intros hdrs hdrs'.
  assert (H : forall header, header ∈ ["host"; "x-amz-date"] ->
     hdrs !! CanonicalHeaderKey header = hdrs' !! CanonicalHeaderKey header).
  { intros h Hh. repeat (apply elem_of_cons in Hh as [-> | Hh]);
      [vm_compute; reflexivity | vm_compute; reflexivity | inversion Hh]. }
  split; [exact H|].
  exact (X14_unsigned_headers_do_not_count _ hdrs hdrs' "example.com" H).
Defined.

(** X15: a signed header whose key is in the map with an empty list of
    values is present: it gives the line made of the name and a colon, and
    no error. *)
Theorem X15_present_without_values (header : string) (req : Request) :
  header <> "expect" -> header <> "host" ->
  Header req !! CanonicalHeaderKey header = Some [] ->
  getCanonicalHeaders [header] req = (header +:+ ":" +:+ LF, None).
Proof.
  intros He Hh Hl. rewrite getCanonicalHeaders_spec. cbn [canonicalLines].
  unfold signedValues. rewrite !decide_False by assumption. rewrite Hl.
  unfold headerLine. cbn [joinComma]. now rewrite !append_nil_l, append_nil_r.
Qed.

Lemma X15_present_without_values_witness :
  let req := {| Header := <["X-Empty" := []]> ∅; Host := "example.com" |} in
  "x-empty" <> "expect" /\ "x-empty" <> "host"
  /\ Header req !! CanonicalHeaderKey "x-empty" = Some []
  /\ getCanonicalHeaders ["x-empty"] req = ("x-empty:" +:+ LF, None).
Proof.
  intros req.
  assert (He : "x-empty" <> "expect") by discriminate.
  assert (Hh : "x-empty" <> "host") by discriminate.
  assert (Hl : Header req !! CanonicalHeaderKey "x-empty" = Some [])
    by (vm_compute; reflexivity).
  split; [exact He|]. split; [exact Hh|]. split; [exact Hl|].
  exact (X15_present_without_values _ req He Hh Hl).
Defined.

Lemma headerLine_joined (header : string) (values : list string) :
  headerLine header [joinComma values] = headerLine header values.
Proof. reflexivity. Qed.

(** X16: the canonical block does not tell a header with several values
    from a header with the single value that joins them with commas:
    replacing the values stored under a key by that single value changes
    nothing in the result. *)
Theorem X16_joined_values_are_not_told_apart
    (signedHeaders : list string) (hdrs : gmap string (list string))
    (key host : string) (values : list string) :
  hdrs !! key = Some values ->
  getCanonicalHeaders signedHeaders
    {| Header := <[key := [joinComma values]]> hdrs; Host := host |}
  = getCanonicalHeaders signedHeaders {| Header := hdrs; Host := host |}.
Proof.
  intros Hk. rewrite !getCanonicalHeaders_spec.
  replace (canonicalLines
             {| Header := <[key := [joinComma values]]> hdrs; Host := host |}
             signedHeaders)
    with (canonicalLines {| Header := hdrs; Host := host |} signedHeaders);
    [reflexivity|].
  induction signedHeaders as [|h rest IH]; [reflexivity|].
  cbn [canonicalLines]. rewrite <- IH. unfold signedValues. cbn [Header Host].
  repeat case_decide; try reflexivity.
  destruct (decide (key = CanonicalHeaderKey h)) as [<- | Hne].
  - rewrite lookup_insert_eq, Hk. now rewrite headerLine_joined.
  - now rewrite lookup_insert_ne.
Qed.

Lemma X16_joined_values_are_not_told_apart_witness :
  let hdrs : gmap string (list string) := <["X-Multi" := ["a"; "b"]]> ∅ in
  hdrs !! "X-Multi" = Some ["a"; "b"]
  /\ getCanonicalHeaders ["x-multi"]
       {| Header := <["X-Multi" := ["a,b"]]> hdrs; Host := "h" |}
     = getCanonicalHeaders ["x-multi"] {| Header := hdrs; Host := "h" |}.
Proof.
  intros hdrs.
  assert (H : hdrs !! "X-Multi" = Some ["a"; "b"]) by reflexivity.
  split; [exact H|].
  exact (X16_joined_values_are_not_told_apart ["x-multi"] hdrs "X-Multi" "h"
           ["a"; "b"] H).
Defined.

(** *** [http.CanonicalHeaderKey] is idempotent *)

Lemma canonicalize_cons (upper : bool) (c : byte) (a : list byte) :
  canonicalize upper (c :: a)
  = canonByte upper c :: canonicalize (b2z (canonByte upper c) =? rc "-") a.
Proof. reflexivity. Qed.

Lemma canonByte_facts (upper : bool) (c : byte) :
  validHeaderFieldByte (canonByte upper c) = validHeaderFieldByte c
  /\ canonByte upper (canonByte upper c) = canonByte upper c.
Proof.
  destruct upper, c as [[] [] [] [] [] [] [] []]; vm_compute; split; reflexivity.
Qed.

Lemma canonicalize_valid (a : list byte) :
  forall upper,
  forallb validHeaderFieldByte (canonicalize upper a)
  = forallb validHeaderFieldByte a.
Proof.
  induction a as [|c a IH]; intros upper; [reflexivity|].
  rewrite canonicalize_cons. cbn [forallb].
  now rewrite IH, (proj1 (canonByte_facts upper c)).
Qed.

Lemma canonicalize_idempotent (a : list byte) :
  forall upper,
  canonicalize upper (canonicalize upper a) = canonicalize upper a.
Proof.
  induction a as [|c a IH]; intros upper; [reflexivity|].
  rewrite !canonicalize_cons.
  rewrite (proj2 (canonByte_facts upper c)). now rewrite IH.
Qed.

Lemma scanKey_true (a : list byte) :
  scanKey true a = None \/ scanKey true a = Some true.
Proof.
  induction a as [|c a IH]; [now right|]. cbn [scanKey].
  destruct (validHeaderFieldByte c); [exact IH|].
  destruct (b2z c =? rc " "); [exact IH | now left].
Qed.

Lemma scanKey_invalid (a : list byte) :
  forallb validHeaderFieldByte a = false ->
  forall noCanon, scanKey noCanon a = None \/ scanKey noCanon a = Some true.
Proof.
  induction a as [|c a IH]; [discriminate|]. cbn [forallb scanKey].
  intros H noCanon. destruct (validHeaderFieldByte c).
  - apply IH, H.
  - destruct (b2z c =? rc " "); [apply scanKey_true | now left].
Qed.

Lemma quickCheck_cases (s : list byte) (canon : option string) :
  forall upper,
  quickCheck upper s canon = None \/ quickCheck upper s canon = canon.
Proof.
  induction s as [|c s IH]; intros upper; [now left|]. cbn [quickCheck].
  destruct (negb (validHeaderFieldByte c)); [now left|].
  destruct (upper && isLower c); [now right|].
  destruct (negb upper && isUpper c); [now right | apply IH].
Qed.

(** A name with a byte that is not a valid field byte is its own key. *)
Lemma CanonicalHeaderKey_invalid (s : string) :
  validName s = false -> CanonicalHeaderKey s = s.
Proof.
  intros Hv. unfold CanonicalHeaderKey.
  destruct (quickCheck_cases (bytes_of_string s)
              (Some (canonicalMIMEHeaderKey (bytes_of_string s))) true)
    as [-> | ->]; [reflexivity|].
  unfold canonicalMIMEHeaderKey.
  destruct (scanKey_invalid _ Hv false) as [-> | ->];
    apply string_of_bytes_of_string.
Qed.

(** X17: [http.CanonicalHeaderKey], through which every signed header is
    looked up, is idempotent: the canonical key of a canonical key is that
    key, so a header signed under its canonical spelling finds the entry the
    lower-case spelling finds. *)
Theorem X17_canonical_key_idempotent (header : string) :
  CanonicalHeaderKey (CanonicalHeaderKey header) = CanonicalHeaderKey header.
Proof.
  destruct (validName header) eqn:Hv.
  - rewrite (CanonicalHeaderKey_valid header Hv).
    rewrite CanonicalHeaderKey_valid.
    + now rewrite bytes_of_string_of_bytes, canonicalize_idempotent.
    + unfold validName in *.
      now rewrite bytes_of_string_of_bytes, canonicalize_valid.
  - now rewrite !(CanonicalHeaderKey_invalid header Hv).
Qed.

(** X18: whatever the input, the encoded name is well-formed
    percent-encoding (two hexadecimal digits follow every [%]) and it
    decodes to valid UTF-8: to the name itself with U+FFFD in place of each
    byte that is not part of a valid sequence. *)
Theorem X18_output_decodes_to_valid_utf8 (name out : string) :
  getURLEncodedName name = Some out ->
  percentDecode out = Some (utf8String (rangeRunes name))
  /\ validUTF8 (utf8String (rangeRunes name)).
Proof.
  rewrite getURLEncodedName_spec. intros [= <-].
  split; [apply percentDecode_encoded|].
  exists (rangeRunes name). split; [apply rangeRunes_scalar | reflexivity].
Qed.

Lemma X18_output_decodes_to_valid_utf8_witness :
  getURLEncodedName (String "255" "a") = Some "%EF%BF%BDa"
  /\ percentDecode "%EF%BF%BDa" = Some (utf8String [0xFFFD; 0x61]).
Proof.
  assert (H : getURLEncodedName (String "255" "a") = Some "%EF%BF%BDa")
    by (vm_compute; reflexivity).
  split; [exact H|].
  exact (proj1 (X18_output_decodes_to_valid_utf8 _ _ H)).
Defined.
